(** * Daily Pulse Builder: a shallow embedding of [build_pulse.py]

    The development follows the source file top to bottom: the keyword
    tables, the field classifiers, [clamp], [bucket_and_aggregate] and
    [process].

    Modelling conventions.
    - A CSV cell is an [option string]: [None] is the missing marker that
      [pd.isna] recognises, [Some s] is the text that [str(...)] yields.
    - The two external capabilities, [pd.to_datetime] and TextBlob's
      polarity, are section variables: nothing is assumed about them
      unless a theorem says so.
    - The code is read twice. In the first, idealised reading a Python float
      is an exact rational ([Q]) with [round] as round-half-to-even, and
      text is ASCII, with [str.lower] acting on the letters A to Z; it
      carries the statements about grouping, counting, ordering and
      precedence, which depend on neither. In the second reading, under
      [Machine], products and quotients are rounded to binary64 and
      [str.lower], [Series.mean], [Series.median] and [round(x, ndigits)]
      are parameters; it carries the statements whose truth depends on
      rounding or on the characters of the text. *)

From Stdlib Require Import Bool List Ascii String ZArith QArith Qround Qabs.
From Stdlib Require Import Lia Lqa Sorting.Sorted Sorting.Permutation.
Import ListNotations.

Local Open Scope list_scope.
Local Open Scope string_scope.

(** ** Text primitives *)

(** A cell of the input frame; [None] is what [pd.isna] answers [True] on. *)
Definition cell : Type := option string.

Definition lower_char (c : ascii) : ascii :=
  let n := nat_of_ascii c in
  if ((65 <=? n) && (n <=? 90))%nat then ascii_of_nat (n + 32) else c.

(** [str.lower()] *)
Fixpoint lower (s : string) : string :=
  match s with
  | EmptyString => EmptyString
  | String c s' => String (lower_char c) (lower s')
  end.

(** [k in s] on Python strings: [k] occurs in [s] as a contiguous run. *)
Fixpoint contains (k s : string) : bool :=
  prefix k s ||
  match s with
  | EmptyString => false
  | String _ s' => contains k s'
  end.

(** [any(k in text for k in keywords)] *)
Definition any_in (keywords : list string) (text : string) : bool :=
  existsb (fun k => contains k text) keywords.

(** The declarative reading of a substring match, used in statements. *)
Definition Substring (k s : string) : Prop :=
  exists p q, s = p ++ k ++ q.

Definition Matches (keywords : list string) (text : string) : Prop :=
  exists k, In k keywords /\ Substring k text.

(** No keyword of a table entry occurs in the text. *)
Definition NoMatch (text : string) (item : string * list string) : Prop :=
  ~ Matches (snd item) text.

(** ** Keyword tables *)

Definition REGION_MAPPING : list (string * list string) :=
  [ ("NA", ["us"; "united states"; "canada"; "mexico"; "los angeles";
            "atlanta"; "chicago"; "toronto"; "vancouver"]);
    ("EU", ["uk"; "united kingdom"; "germany"; "france"; "italy"; "spain";
            "netherlands"; "london"; "paris"; "berlin"]);
    ("AP", ["india"; "china"; "japan"; "korea"; "australia"; "singapore";
            "hong kong"; "new zealand"; "thailand"]);
    ("LA", ["brazil"; "argentina"; "chile"; "colombia"; "peru"; "venezuela";
            "mexico city"]) ].

Definition PROJECT_TYPE_MAPPING : list (string * list string) :=
  [ ("F", ["film"; "movie"; "feature"]);
    ("T", ["tv"; "series"; "streaming"; "show"; "episode"]);
    ("C", ["commercial"; "advertisement"; "ad"]);
    ("V", []) ].

Definition LEAD_TERMS : list string := ["lead"; "principal"; "main"; "starring"].

Definition UNION_KEYWORDS : list string := ["sag"; "aftra"; "equity"; "union"].

Definition AI_TERMS : list string :=
  ["ai"; "robot"; "android"; "artificial intelligence"; "cyborg";
   "machine learning"].

(** [REGION_MAPPING] with the keyword "australia" taken out of AP and the
    keyword "mexico city" taken out of LA. *)
Definition REGION_MAPPING_pruned : list (string * list string) :=
  [ ("NA", ["us"; "united states"; "canada"; "mexico"; "los angeles";
            "atlanta"; "chicago"; "toronto"; "vancouver"]);
    ("EU", ["uk"; "united kingdom"; "germany"; "france"; "italy"; "spain";
            "netherlands"; "london"; "paris"; "berlin"]);
    ("AP", ["india"; "china"; "japan"; "korea"; "singapore";
            "hong kong"; "new zealand"; "thailand"]);
    ("LA", ["brazil"; "argentina"; "chile"; "colombia"; "peru"; "venezuela"]) ].

(** ** Field classifiers *)

(** The loop [for code, keywords in MAPPING.items(): if any(...): return code];
    a dict iterates in insertion order, which is the order of the table. *)
Fixpoint first_match (items : list (string * list string)) (text : string)
  : option string :=
  match items with
  | [] => None
  | (code, keywords) :: rest =>
      if any_in keywords text then Some code else first_match rest text
  end.

(** The body shared by [map_region] and [map_project_type]. *)
Definition map_code (mapping : list (string * list string)) (default : string)
  (field : cell) : string :=
  match field with
  | None => default
  | Some v =>
      match first_match mapping (lower v) with
      | Some code => code
      | None => default
      end
  end.

Definition map_region (location : cell) : string :=
  map_code REGION_MAPPING "NA" location.

Definition map_project_type (project_type : cell) : string :=
  map_code PROJECT_TYPE_MAPPING "V" project_type.

Definition is_lead (role_type : cell) : bool :=
  match role_type with
  | None => false
  | Some v => any_in LEAD_TERMS (lower v)
  end.

Definition is_union (union_status : cell) : bool :=
  match union_status with
  | None => false
  | Some v =>
      let status := lower v in
      negb (contains "non-union" status) && any_in UNION_KEYWORDS status
  end.

Definition has_ai_keywords (text : cell) : bool :=
  match text with
  | None => false
  | Some v => any_in AI_TERMS (lower v)
  end.

(** ** Numbers *)

Local Open Scope Q_scope.

(** [round(x)] with one argument: the nearest integer, ties to the even one. *)
Definition round_half_even (x : Q) : Z :=
  let f := Qfloor x in
  match Qcompare (x - inject_Z f) (1 # 2) with
  | Lt => f
  | Gt => (f + 1)%Z
  | Eq => if Z.even f then f else (f + 1)%Z
  end.

(** [round(x, ndigits)] *)
Definition round_ndigits (x : Q) (ndigits : nat) : Q :=
  let scale := inject_Z (10 ^ Z.of_nat ndigits) in
  inject_Z (round_half_even (x * scale)) / scale.

(** The builtins [min(a, b)] and [max(a, b)]: the first argument is kept
    unless the second is strictly smaller (larger). *)
Definition py_min (a b : Q) : Q :=
  match Qcompare b a with Lt => b | _ => a end.

Definition py_max (a b : Q) : Q :=
  match Qcompare b a with Gt => b | _ => a end.

(** [clamp(value, min_val=0.0, max_val=1.0)] *)
Definition clamp (value min_val max_val : Q) : Q :=
  py_max min_val (py_min max_val value).

(** *** The rate extractor: first match of [\d+\.?\d*], read as a number *)

Definition is_digit (c : ascii) : bool :=
  let n := nat_of_ascii c in ((48 <=? n) && (n <=? 57))%nat.

Definition digit_value (c : ascii) : Z := Z.of_nat (nat_of_ascii c - 48).

(** The longest run of digits at the head of [s], and what follows it. *)
Fixpoint take_digits (s : string) : list Z * string :=
  match s with
  | EmptyString => ([], s)
  | String c s' =>
      if is_digit c
      then let (ds, rest) := take_digits s' in (digit_value c :: ds, rest)
      else ([], s)
  end.

(** [re.findall(r'\d+\.?\d*', text)[0]], as integer digits and fraction digits. *)
Fixpoint first_number (s : string) : option (list Z * list Z) :=
  match s with
  | EmptyString => None
  | String c s' =>
      if is_digit c then
        let (int_digits, rest) := take_digits s in
        match rest with
        | String "."%char rest' => Some (int_digits, fst (take_digits rest'))
        | _ => Some (int_digits, [])
        end
      else first_number s'
  end.

Definition digits_to_Z (ds : list Z) : Z :=
  fold_left (fun acc d => (10 * acc + d)%Z) ds 0%Z.

(** [float(token)] for a token of the shape above. *)
Definition float_of_token (tok : list Z * list Z) : Q :=
  let (int_digits, frac_digits) := tok in
  inject_Z (digits_to_Z int_digits) +
  inject_Z (digits_to_Z frac_digits) /
  inject_Z (10 ^ Z.of_nat (List.length frac_digits)).

(** [None] stands for [np.nan]. *)
Definition extract_rate (text : cell) : option Q :=
  match text with
  | None => None
  | Some v =>
      match first_number v with
      | Some tok => Some (float_of_token tok)
      | None => None
      end
  end.

(** *** The sentiment scorer and its external capability *)

(** What a call to [TextBlob(text).sentiment.polarity] can do. *)
Inductive outcome : Type :=
| Returned (polarity : Q)
| Raised.

(** A computation that may call the polarity capability: either a value, or
    one call with the text it is given and what is done with its outcome. *)
Inductive uses_polarity (A : Type) : Type :=
| Ret (a : A)
| Invoke (text : string) (k : outcome -> uses_polarity A).

Arguments Ret {A} a.
Arguments Invoke {A} text k.

Definition calc_sentiment (text : cell) : uses_polarity Q :=
  match text with
  | None => Ret 0
  | Some v =>
      Invoke v (fun o =>
        match o with
        | Returned polarity =>
            Ret (inject_Z (round_half_even (polarity * 20)) / 20)
        | Raised => Ret 0
        end)
  end.

(** Running a computation against a given capability. *)
Fixpoint run {A : Type} (capability : string -> outcome) (c : uses_polarity A) : A :=
  match c with
  | Ret a => a
  | Invoke text k => run capability (k (capability text))
  end.


(** ** Records *)

(** [datetime.date]; dates compare as the triples (year, month, day). *)
Record date : Type := mkdate { year : Z; month : Z; day : Z }.

Module Raw.
(** One row of the input CSV. *)
Record t : Type := mk {
  posted_date : cell;
  work_location : cell;
  project_type : cell;
  role_type : cell;
  union : cell;
  rate : cell;
  role_description : cell
}.
End Raw.

Module DF.
(** The columns [process] adds to a row; [date_utc = None] is [NaT]. *)
Record t : Type := mk {
  date_utc : option date;
  region_code : string;
  proj_type_code : string;
  is_lead : bool;
  is_union : bool;
  rate_val : option Q;
  sentiment : Q;
  has_ai : bool
}.
End DF.

Module Pulse.
(** One dict appended to [results]. *)
Record t : Type := mk {
  date_utc : date;
  region_code : string;
  proj_type_code : string;
  role_count_day : nat;
  lead_share_pct_day : Q;
  union_share_pct_day : Q;
  median_rate_day_usd : option Z;
  sentiment_avg_day : Q;
  theme_ai_share_pct_day : Q
}.
End Pulse.

(** ** Ordering of group keys *)

(** Comparison of tuples: the first component that differs decides. *)
Definition lex (c1 c2 : comparison) : comparison :=
  match c1 with
  | Eq => c2
  | _ => c1
  end.

Definition date_compare (a b : date) : comparison :=
  lex (Z.compare (year a) (year b))
    (lex (Z.compare (month a) (month b)) (Z.compare (day a) (day b))).

(** What the proofs need of a three-way comparison. *)
Class Order {A : Type} (cmp : A -> A -> comparison) : Prop := {
  cmp_eq : forall a b, cmp a b = Eq -> a = b;
  cmp_refl : forall a, cmp a a = Eq;
  cmp_antisym : forall a b, cmp a b = CompOpp (cmp b a);
  cmp_trans : forall a b c, cmp a b = Lt -> cmp b c = Lt -> cmp a c = Lt
}.

Definition pair_compare {A B : Type} (cA : A -> A -> comparison)
  (cB : B -> B -> comparison) (x y : A * B) : comparison :=
  lex (cA (fst x) (fst y)) (cB (snd x) (snd y)).

Definition key : Type := date * string * string.

Definition key_compare (a b : key) : comparison :=
  let '(d1, r1, p1) := a in
  let '(d2, r2, p2) := b in
  lex (date_compare d1 d2) (lex (String.compare r1 r2) (String.compare p1 p2)).

Definition key_lt (a b : key) : Prop := key_compare a b = Lt.

(** ** The bucket aggregator *)

(** The group key of a row; a row whose date is [NaT] has none. *)
Definition key_of (r : DF.t) : option key :=
  match DF.date_utc r with
  | Some d => Some (d, DF.region_code r, DF.proj_type_code r)
  | None => None
  end.

Definition has_key (k : key) (r : DF.t) : bool :=
  match key_of r with
  | Some k' => match key_compare k k' with Eq => true | _ => false end
  | None => false
  end.

Fixpoint insert_key (k : key) (ks : list key) : list key :=
  match ks with
  | [] => [k]
  | k' :: rest =>
      match key_compare k k' with
      | Lt => k :: ks
      | Eq => ks
      | Gt => k' :: insert_key k rest
      end
  end.

(** The distinct keys of the frame in ascending order; rows without a key
    are dropped ([dropna=True]). *)
Definition group_keys (df : list DF.t) : list key :=
  fold_right
    (fun r ks => match key_of r with Some k => insert_key k ks | None => ks end)
    [] df.

(** [df.groupby([...])], as it is iterated: one (key, group) pair per distinct
    key, keys ascending ([sort=True]), each group keeping the frame's row
    order. *)
Definition groupby (df : list DF.t) : list (key * list DF.t) :=
  map (fun k => (k, filter (has_key k) df)) (group_keys df).

(** [group[col].sum()] on a boolean column *)
Definition count_true (flag : DF.t -> bool) (group : list DF.t) : nat :=
  List.length (filter flag group).

(** [group['rate_val'].dropna()] *)
Fixpoint valid_rates (group : list DF.t) : list Q :=
  match group with
  | [] => []
  | r :: rest =>
      match DF.rate_val r with
      | Some v => v :: valid_rates rest
      | None => valid_rates rest
      end
  end.

Fixpoint insert_Q (x : Q) (l : list Q) : list Q :=
  match l with
  | [] => [x]
  | y :: rest => if Qle_bool x y then x :: l else y :: insert_Q x rest
  end.

Definition sort_Q (l : list Q) : list Q := fold_right insert_Q [] l.

Definition Qsum (l : list Q) : Q := fold_right Qplus 0 l.

(** [Series.mean()] of a non-empty series *)
Definition mean (l : list Q) : Q :=
  Qsum l / inject_Z (Z.of_nat (List.length l)).

(** [Series.median()] of a non-empty series: the middle value of the sorted
    values, or the mean of the two middle ones. *)
Definition median (l : list Q) : Q :=
  let s := sort_Q l in
  let n := List.length s in
  if Nat.even n
  then (nth (n / 2 - 1) s 0 + nth (n / 2) s 0) / 2
  else nth (n / 2) s 0.

Definition share (flag : DF.t -> bool) (group : list DF.t) : Q :=
  inject_Z (Z.of_nat (count_true flag group)) /
  inject_Z (Z.of_nat (List.length group)).

(** The body of the loop for a group that passes the size test. *)
Definition pulse_row (k : key) (group : list DF.t) : Pulse.t :=
  let '(date, region, proj) := k in
  let total := List.length group in
  let lead_pct := clamp (share DF.is_lead group) 0 1 in
  let union_pct := clamp (share DF.is_union group) 0 1 in
  let ai_pct := clamp (share DF.has_ai group) 0 1 in
  let rates := valid_rates group in
  let median_rate :=
    match rates with
    | [] => None
    | _ => Some (round_half_even (median rates / 250) * 250)%Z
    end in
  let avg_sentiment := clamp (mean (map DF.sentiment group)) (-1) 1 in
  {| Pulse.date_utc := date;
     Pulse.region_code := region;
     Pulse.proj_type_code := proj;
     Pulse.role_count_day := total;
     Pulse.lead_share_pct_day := round_ndigits lead_pct 1;
     Pulse.union_share_pct_day := round_ndigits union_pct 1;
     Pulse.median_rate_day_usd := median_rate;
     Pulse.sentiment_avg_day := round_ndigits avg_sentiment 2;
     Pulse.theme_ai_share_pct_day := round_ndigits ai_pct 1 |}.

(** The loop over the groups: a group of fewer than 5 rows is skipped
    ([continue]), any other appends its row to [results]. *)
Fixpoint aggregate (groups : list (key * list DF.t)) : list Pulse.t :=
  match groups with
  | [] => []
  | (k, group) :: rest =>
      if (List.length group <? 5)%nat
      then aggregate rest
      else pulse_row k group :: aggregate rest
  end.

Definition bucket_and_aggregate (df : list DF.t) : list Pulse.t :=
  aggregate (groupby df).

(** ** The result frame and its sort *)

Inductive exn : Type :=
| KeyError (label : string).

Inductive result (A : Type) : Type :=
| Ok (a : A)
| Raise (e : exn).

Arguments Ok {A} a.
Arguments Raise {A} e.

(** A frame of result rows: its column labels and its rows. *)
Record DataFrame : Type := mkframe {
  columns : list string;
  rows : list Pulse.t
}.

Definition PULSE_COLUMNS : list string :=
  ["date_utc"; "region_code"; "proj_type_code"; "role_count_day";
   "lead_share_pct_day"; "union_share_pct_day"; "median_rate_day_usd";
   "sentiment_avg_day"; "theme_ai_share_pct_day"].

(** [pd.DataFrame(results)] on a list of dicts: the columns are the keys of
    the dicts, so an empty list gives a frame with no column at all. *)
Definition DataFrame_of (results : list Pulse.t) : DataFrame :=
  match results with
  | [] => mkframe [] []
  | _ => mkframe PULSE_COLUMNS results
  end.

Definition row_key (r : Pulse.t) : key :=
  (Pulse.date_utc r, Pulse.region_code r, Pulse.proj_type_code r).

Fixpoint insert_row (r : Pulse.t) (l : list Pulse.t) : list Pulse.t :=
  match l with
  | [] => [r]
  | r' :: rest =>
      match key_compare (row_key r) (row_key r') with
      | Gt => r' :: insert_row r rest
      | _ => r :: l
      end
  end.

Definition sort_rows (l : list Pulse.t) : list Pulse.t :=
  fold_right insert_row [] l.

(** The first label of [by] that is not a column of the frame. *)
Fixpoint missing_label (by_ : list string) (cols : list string) : option string :=
  match by_ with
  | [] => None
  | label :: rest =>
      if existsb (String.eqb label) cols then missing_label rest cols
      else Some label
  end.

(** [pulse.sort_values(['date_utc', 'region_code', 'proj_type_code'])]: each
    label is looked up first, and a label that is no column raises
    [KeyError]; then the rows are put in ascending key order. *)
Definition sort_values (pulse : DataFrame) : result DataFrame :=
  match missing_label ["date_utc"; "region_code"; "proj_type_code"]
          (columns pulse) with
  | Some label => Raise (KeyError label)
  | None => Ok (mkframe (columns pulse) (sort_rows (rows pulse)))
  end.

(** The second half of [process]: aggregate, build the frame, sort it, and
    hand its rows to [to_csv]. *)
Definition emit (df : list DF.t) : result (list Pulse.t) :=
  let pulse := DataFrame_of (bucket_and_aggregate df) in
  match sort_values pulse with
  | Ok sorted => Ok (rows sorted)
  | Raise e => Raise e
  end.

(** [df['date_utc'].notna()] *)
Definition has_date (r : DF.t) : bool :=
  match DF.date_utc r with
  | Some _ => true
  | None => false
  end.

(** ** The pipeline *)

Section Pipeline.

(** [pd.to_datetime(column, errors='coerce')] followed by [.dt.date], read
    at one cell: the whole column is an argument because the parser may
    infer its format from it. [None] is [NaT]. *)
Variable to_datetime : list cell -> cell -> option date.

(** [TextBlob(text).sentiment.polarity] *)
Variable polarity : string -> outcome.

(** The column assignments of [process], for one row. *)
Definition derive_row (posted : list cell) (r : Raw.t) : DF.t :=
  {| DF.date_utc := to_datetime posted (Raw.posted_date r);
     DF.region_code := map_region (Raw.work_location r);
     DF.proj_type_code := map_project_type (Raw.project_type r);
     DF.is_lead := is_lead (Raw.role_type r);
     DF.is_union := is_union (Raw.union r);
     DF.rate_val := extract_rate (Raw.rate r);
     DF.sentiment := run polarity (calc_sentiment (Raw.role_description r));
     DF.has_ai := has_ai_keywords (Raw.role_description r) |}.

Definition derive (raw : list Raw.t) : list DF.t :=
  map (derive_row (map Raw.posted_date raw)) raw.

(** [process], from the rows read to the rows handed to [to_csv]. *)
Definition process (raw : list Raw.t) : result (list Pulse.t) :=
  emit (derive raw).

End Pipeline.

(** ** Sample inputs

    Small concrete frames and capabilities on which the statements below are
    evaluated. *)

Definition listing (posted location rate_text description : string) : Raw.t :=
  {| Raw.posted_date := Some posted;
     Raw.work_location := Some location;
     Raw.project_type := Some "Feature Film";
     Raw.role_type := Some "Lead";
     Raw.union := Some "SAG-AFTRA";
     Raw.rate := Some rate_text;
     Raw.role_description := Some description |}.

(** Four listings of one day, one place, one project type. *)
Definition four_listings : list Raw.t :=
  [ listing "2024-01-01" "Los Angeles" "$1200" "Robot lead role";
    listing "2024-01-01" "Los Angeles" "$1300" "A warm family drama";
    listing "2024-01-01" "Los Angeles" "Unknown" "Supporting role";
    listing "2024-01-01" "Los Angeles" "Unknown" "Background" ].

(** The same day with a fifth listing, and one listing whose date is no date. *)
Definition six_listings : list Raw.t :=
  listing "2024-01-01" "Los Angeles" "$1250.50" "Extras" ::
  listing "someday" "Los Angeles" "$900" "Undated role" ::
  four_listings.

(** A date parser that knows two days and coerces the rest to [NaT]. *)
Definition sample_to_datetime (_ : list cell) (c : cell) : option date :=
  match c with
  | Some "2024-01-01" => Some (mkdate 2024 1 1)
  | Some "2024-01-02" => Some (mkdate 2024 1 2)
  | _ => None
  end.

(** A polarity capability that fails on one text and is mildly positive
    on the others. *)
Definition sample_polarity (text : string) : outcome :=
  if String.eqb text "Background" then Raised else Returned (3 # 10).

(** ** Auxiliary notions used in the statements on the remaining code *)

(** [PROJECT_TYPE_MAPPING] with the keyword "advertisement" taken out of C. *)
Definition PROJECT_TYPE_MAPPING_pruned : list (string * list string) :=
  [ ("F", ["film"; "movie"; "feature"]);
    ("T", ["tv"; "series"; "streaming"; "show"; "episode"]);
    ("C", ["commercial"; "ad"]);
    ("V", []) ].

(** No character of the text is a decimal digit. *)
Fixpoint no_digits (s : string) : bool :=
  match s with
  | EmptyString => true
  | String c s' => negb (is_digit c) && no_digits s'
  end.

(** Every character of the text is a decimal digit. *)
Fixpoint all_digits (s : string) : bool :=
  match s with
  | EmptyString => true
  | String c s' => is_digit c && all_digits s'
  end.

(** The text is empty or starts with a character other than a digit. *)
Definition no_leading_digit (s : string) : bool :=
  match s with
  | EmptyString => true
  | String c _ => negb (is_digit c)
  end.

(** The text is empty or starts with neither a digit nor a dot. *)
Definition ends_integer_token (s : string) : bool :=
  match s with
  | EmptyString => true
  | String c _ => negb (is_digit c) && negb (Ascii.eqb c "."%char)
  end.

(** The number a run of digit characters denotes. *)
Fixpoint string_digits (s : string) : list Z :=
  match s with
  | EmptyString => []
  | String c s' => digit_value c :: string_digits s'
  end.

Definition decimal_value (s : string) : Z := digits_to_Z (string_digits s).

(** The fields of a result row that are counts or ratios of counts. *)
Definition row_counts (row : Pulse.t) : key * nat * Q * Q * Q :=
  (row_key row, Pulse.role_count_day row, Pulse.lead_share_pct_day row,
   Pulse.union_share_pct_day row, Pulse.theme_ai_share_pct_day row).

(** The sum of [role_count_day] over a list of result rows. *)
Definition total_roles (out : list Pulse.t) : nat :=
  fold_right (fun row n => (Pulse.role_count_day row + n)%nat) 0%nat out.

(** The text is plain ASCII: each character is below 128. *)
Definition ascii_char (c : ascii) : bool := (nat_of_ascii c <? 128)%nat.

Fixpoint is_ascii (s : string) : bool :=
  match s with
  | EmptyString => true
  | String c s' => ascii_char c && is_ascii s'
  end.

(** The text is empty or starts with an ASCII character that is neither a
    digit nor a dot. *)
Definition stops_integer (s : string) : bool :=
  match s with
  | EmptyString => true
  | String c _ =>
      ascii_char c && negb (is_digit c) && negb (Ascii.eqb c "."%char)
  end.

(** The text is empty or starts with an ASCII character that is no digit. *)
Definition stops_digits (s : string) : bool :=
  match s with
  | EmptyString => true
  | String c _ => ascii_char c && negb (is_digit c)
  end.

(** Ten listings: five of one day in Los Angeles, five of the next day in
    London. *)
Definition ten_listings : list Raw.t :=
  [ listing "2024-01-02" "London" "$500" "Day player";
    listing "2024-01-01" "Los Angeles" "$1200" "Robot lead role";
    listing "2024-01-02" "London" "$700" "Stand-in";
    listing "2024-01-01" "Los Angeles" "$1300" "A warm family drama";
    listing "2024-01-02" "London" "$650" "Narrator";
    listing "2024-01-01" "Los Angeles" "Unknown" "Supporting role";
    listing "2024-01-02" "London" "Unknown" "Dancer";
    listing "2024-01-01" "Los Angeles" "Unknown" "Background";
    listing "2024-01-02" "London" "$900" "Host";
    listing "2024-01-01" "Los Angeles" "$1250.50" "Extras" ].

(** * The same code over machine arithmetic

    Above, a Python float is an exact rational and [str.lower] acts on ASCII
    letters only. The definitions below drop both idealisations. A float is
    the rational number it denotes; the products and quotients the code
    computes are rounded to the nearest binary64 value, ties to even ([fl]);
    and the library functions whose algorithm is not the code's own
    ([str.lower], [Series.mean], [Series.median], [round(x, ndigits)]) are
    parameters, collected in a record. Text is then a string of UTF-8 bytes,
    in which an ASCII keyword occurs exactly where it occurs in the text. *)

(** The exponent [e] such that the binary64 values around [x] are the
    multiples of [2^e]: 52 below the exponent of [x], and never below the
    exponent -1074 of the subnormal values. *)
Definition ulp_exponent (x : Q) : Z :=
  Z.max (Z.log2 (Qfloor (Qabs x * inject_Z (2 ^ 1074))) - 1074 - 52) (-1074).

(** Rounding to the nearest binary64 value, ties to even (no overflow: the
    values of this development stay far below [2^1024]). *)
Definition fl (x : Q) : Q :=
  let e := ulp_exponent x in
  if (e <=? 0)%Z
  then inject_Z (round_half_even (x * inject_Z (2 ^ (- e)))) /
       inject_Z (2 ^ (- e))
  else inject_Z (round_half_even (x / inject_Z (2 ^ e)) * 2 ^ e).

(** [x * y] and [x / y] on floats *)
Definition fmul (x y : Q) : Q := fl (x * y).

Definition fdiv (x y : Q) : Q := fl (x / y).

(** The library functions that are parameters. *)
Record library : Type := mklibrary {
  str_lower : string -> string;      (* [str.lower()] *)
  Series_mean : list Q -> Q;         (* [Series.mean()] *)
  Series_median : list Q -> Q;       (* [Series.median()] *)
  round_nd : Q -> nat -> Q           (* [round(x, ndigits)] *)
}.

(** The loop of [bucket_and_aggregate] for a given loop body. *)
Fixpoint aggregate_with (row_of : key -> list DF.t -> Pulse.t)
  (groups : list (key * list DF.t)) : list Pulse.t :=
  match groups with
  | [] => []
  | (k, group) :: rest =>
      if (List.length group <? 5)%nat
      then aggregate_with row_of rest
      else row_of k group :: aggregate_with row_of rest
  end.

Module Machine.

Section WithLibrary.

Variable lib : library.

Definition map_code (mapping : list (string * list string)) (default : string)
  (field : cell) : string :=
  match field with
  | None => default
  | Some v =>
      match first_match mapping (str_lower lib v) with
      | Some code => code
      | None => default
      end
  end.

Definition map_region (location : cell) : string :=
  map_code REGION_MAPPING "NA" location.

Definition map_project_type (project_type : cell) : string :=
  map_code PROJECT_TYPE_MAPPING "V" project_type.

Definition is_lead (role_type : cell) : bool :=
  match role_type with
  | None => false
  | Some v => any_in LEAD_TERMS (str_lower lib v)
  end.

Definition is_union (union_status : cell) : bool :=
  match union_status with
  | None => false
  | Some v =>
      let status := str_lower lib v in
      negb (contains "non-union" status) && any_in UNION_KEYWORDS status
  end.

Definition has_ai_keywords (text : cell) : bool :=
  match text with
  | None => false
  | Some v => any_in AI_TERMS (str_lower lib v)
  end.

(** [round(polarity * 20) / 20]: a float product, an exact rounding of that
    float to an integer, and the float quotient of two integers. *)
Definition calc_sentiment (text : cell) : uses_polarity Q :=
  match text with
  | None => Ret 0
  | Some v =>
      Invoke v (fun o =>
        match o with
        | Returned polarity =>
            Ret (fdiv (inject_Z (round_half_even (fmul polarity 20))) 20)
        | Raised => Ret 0
        end)
  end.

(** [group[col].sum() / total] *)
Definition ratio (flag : DF.t -> bool) (group : list DF.t) : Q :=
  fdiv (inject_Z (Z.of_nat (count_true flag group)))
       (inject_Z (Z.of_nat (List.length group))).

Definition pulse_row (k : key) (group : list DF.t) : Pulse.t :=
  let '(date, region, proj) := k in
  let total := List.length group in
  let lead_pct := clamp (ratio DF.is_lead group) 0 1 in
  let union_pct := clamp (ratio DF.is_union group) 0 1 in
  let ai_pct := clamp (ratio DF.has_ai group) 0 1 in
  let rates := valid_rates group in
  let median_rate :=
    match rates with
    | [] => None
    | _ =>
        Some (round_half_even (fdiv (Series_median lib rates) 250) * 250)%Z
    end in
  let avg_sentiment :=
    clamp (Series_mean lib (map DF.sentiment group)) (-1) 1 in
  {| Pulse.date_utc := date;
     Pulse.region_code := region;
     Pulse.proj_type_code := proj;
     Pulse.role_count_day := total;
     Pulse.lead_share_pct_day := round_nd lib lead_pct 1;
     Pulse.union_share_pct_day := round_nd lib union_pct 1;
     Pulse.median_rate_day_usd := median_rate;
     Pulse.sentiment_avg_day := round_nd lib avg_sentiment 2;
     Pulse.theme_ai_share_pct_day := round_nd lib ai_pct 1 |}.

Definition bucket_and_aggregate (df : list DF.t) : list Pulse.t :=
  aggregate_with pulse_row (groupby df).

End WithLibrary.

End Machine.

(** The library of the idealised reading: ASCII lower-casing and exact
    statistics. *)
Definition exact_library : library :=
  {| str_lower := lower;
     Series_mean := mean;
     Series_median := median;
     round_nd := round_ndigits |}.


(** A frame of five rows of one key of which one is a lead, and a frame of
    five rows of one key with the two rates 100 and 150. *)
Definition sample_row (lead : bool) (rate_value : option Q) : DF.t :=
  {| DF.date_utc := Some (mkdate 2024 1 1);
     DF.region_code := "NA";
     DF.proj_type_code := "F";
     DF.is_lead := lead;
     DF.is_union := true;
     DF.rate_val := rate_value;
     DF.sentiment := 1 # 20;
     DF.has_ai := false |}.

Definition sample_frame : list DF.t :=
  [ sample_row true (Some 100); sample_row false (Some 150);
    sample_row false None; sample_row false None; sample_row false None ].

Local Close Scope Q_scope.

(** * Properties *)

(** ** Facts about substring matching *)

Section SubstringFacts.

Lemma prefix_app_iff (k s : string) :
  prefix k s = true <-> exists q, s = k ++ q.
Proof.
  revert s; induction k as [|a k IH]; intros [|b s]; simpl.
  - split; [intros _; now exists "" | reflexivity].
  - split; [intros _; now exists (String b s) | reflexivity].
  - split; [discriminate | intros [q Hq]; discriminate].
  - destruct (ascii_dec a b) as [->|Hab].
    + rewrite IH. split; intros [q Hq]; exists q.
      * now rewrite Hq.
      * now injection Hq.
    + split; [discriminate | intros [q Hq]; injection Hq; congruence].
Qed.

Lemma contains_Substring (k s : string) :
  contains k s = true <-> Substring k s.
Proof.
  induction s as [|c s IH].
  - cbn [contains]. rewrite orb_false_r, prefix_app_iff. split.
    + intros [q Hq]. now exists "", q.
    + intros [p [q Hpq]]. destruct p; simpl in Hpq.
      * now exists q.
      * discriminate.
  - cbn [contains]. rewrite orb_true_iff, prefix_app_iff, IH. split.
    + intros [[q Hq] | [p [q Hpq]]].
      * now exists "", q.
      * exists (String c p), q. simpl. now rewrite Hpq.
    + intros [p [q Hpq]]. destruct p as [|d p]; simpl in Hpq.
      * left. now exists q.
      * right. injection Hpq as _ Hs. now exists p, q.
Qed.

Lemma contains_false_Substring (k s : string) :
  contains k s = false <-> ~ Substring k s.
Proof.
  rewrite <- contains_Substring. destruct (contains k s); intuition congruence.
Qed.

Lemma any_in_Matches (keywords : list string) (text : string) :
  any_in keywords text = true <-> Matches keywords text.
Proof.
  unfold any_in, Matches. rewrite existsb_exists.
  split; intros [k [Hin Hk]]; exists k; split; auto;
    now apply contains_Substring.
Qed.

Lemma any_in_false_Matches (keywords : list string) (text : string) :
  any_in keywords text = false <-> ~ Matches keywords text.
Proof.
  rewrite <- any_in_Matches. destruct (any_in keywords text); intuition congruence.
Qed.

Lemma append_assoc (a b c : string) : (a ++ b) ++ c = a ++ (b ++ c).
Proof. induction a as [|x a IH]; simpl; [reflexivity | now rewrite IH]. Qed.

Lemma Substring_trans (a b c : string) :
  Substring a b -> Substring b c -> Substring a c.
Proof.
  intros [p [q ->]] [p' [q' ->]].
  exists (p' ++ p), (q ++ q'). now rewrite !append_assoc.
Qed.

Lemma lower_app (a b : string) : lower (a ++ b) = lower a ++ lower b.
Proof. induction a as [|x a IH]; simpl; [reflexivity | now rewrite IH]. Qed.

(** Lower-casing keeps every occurrence of an already lower-case word. *)
Lemma Substring_lower (k s : string) :
  lower k = k -> Substring k s -> Substring k (lower s).
Proof.
  intros Hk [p [q ->]]. exists (lower p), (lower q).
  now rewrite !lower_app, Hk.
Qed.

End SubstringFacts.

(** ** The ordered-table lookup *)

Section FirstMatch.

Lemma first_match_Some (items : list (string * list string)) text code :
  first_match items text = Some code <->
  exists before keywords after,
    items = (before ++ (code, keywords) :: after)%list /\
    Forall (NoMatch text) before /\ Matches keywords text.
Proof.
  induction items as [|[c kws] rest IH]; simpl.
  - split; [discriminate | intros (b & k & a & H & _); now destruct b].
  - destruct (any_in kws text) eqn:Hany.
    + apply any_in_Matches in Hany. split.
      * intros [= <-]. now exists [], kws, rest.
      * intros (b & k & a & Heq & Hno & Hm). destruct b as [|x b].
        -- now injection Heq as -> _ _.
        -- injection Heq as <- _. inversion Hno as [|? ? Hx _]. now elim Hx.
    + apply any_in_false_Matches in Hany. rewrite IH. split.
      * intros (b & k & a & -> & Hno & Hm).
        exists ((c, kws) :: b), k, a. repeat split; auto.
      * intros (b & k & a & Heq & Hno & Hm). destruct b as [|x b].
        -- injection Heq as <- <- _. now elim Hany.
        -- injection Heq as _ ->. inversion Hno. now exists b, k, a.
Qed.

Lemma first_match_None (items : list (string * list string)) text :
  first_match items text = None <-> Forall (NoMatch text) items.
Proof.
  induction items as [|[c kws] rest IH]; simpl.
  - split; auto.
  - destruct (any_in kws text) eqn:Hany.
    + apply any_in_Matches in Hany. split; [discriminate|].
      intros H; inversion H as [|? ? Hx _]. now elim Hx.
    + apply any_in_false_Matches in Hany. rewrite IH. split.
      * now constructor.
      * now inversion 1.
Qed.

End FirstMatch.

(** ** The classifiers *)

Section Classifiers.

Lemma contains_shadowed (a b text : string) :
  Substring a b -> contains a text = false -> contains b text = false.
Proof.
  intros Hab Ha. apply contains_false_Substring.
  apply contains_false_Substring in Ha.
  intros Hb. apply Ha. exact (Substring_trans _ _ _ Hab Hb).
Qed.

Lemma map_code_Some (mapping : list (string * list string)) default v :
  map_code mapping default (Some v) =
  match first_match mapping (lower v) with
  | Some code => code
  | None => default
  end.
Proof. reflexivity. Qed.

(** A text whose lower-cased form matches a keyword of the first category
    is mapped to that category. *)
Lemma map_region_NA_keyword (location k : string) :
  In k (snd (hd ("", []) REGION_MAPPING)) ->
  Substring k (lower location) ->
  map_region (Some location) = "NA".
Proof.
  intros Hin Hsub. unfold map_region. rewrite map_code_Some.
  unfold REGION_MAPPING at 1. cbn [first_match].
  replace (any_in _ (lower location)) with true; [reflexivity|].
  symmetry. apply any_in_Matches. now exists k.
Qed.

Lemma map_region_australia_lower (location : string) :
  Substring "australia" (lower location) -> map_region (Some location) = "NA".
Proof.
  intros H. apply (map_region_NA_keyword location "us").
  - simpl. auto.
  - apply Substring_trans with (b := "australia"); [|exact H].
    now exists "a", "tralia".
Qed.

Lemma map_region_mexico_city_lower (location : string) :
  Substring "mexico city" (lower location) -> map_region (Some location) = "NA".
Proof.
  intros H. apply (map_region_NA_keyword location "mexico").
  - simpl. auto 10.
  - apply Substring_trans with (b := "mexico city"); [|exact H].
    now exists "", " city".
Qed.

End Classifiers.

(** C5. [is_union] answers false on a missing status; on a text it answers
    true exactly when the lower-cased text contains one of sag, aftra,
    equity, union and does not contain "non-union". *)
Theorem is_union_iff :
  UNION_KEYWORDS = ["sag"; "aftra"; "equity"; "union"] /\
  is_union None = false /\
  forall union_status : string,
    is_union (Some union_status) = true <->
    Matches UNION_KEYWORDS (lower union_status) /\
    ~ Substring "non-union" (lower union_status).
Proof.
  split; [reflexivity|]. split; [reflexivity|].
  intros union_status. unfold is_union.
  rewrite andb_true_iff, negb_true_iff, any_in_Matches,
    contains_false_Substring.
  tauto.
Qed.

(** C9. A location that contains "australia" is mapped to NA, not AP, and a
    location that contains "mexico city" is mapped to NA, not LA; taking
    these two keywords out of the table changes the result for no input. *)
Theorem australia_and_mexico_city_shadowed :
  forall location : string,
    (Substring "australia" location ->
       map_region (Some location) = "NA" /\ map_region (Some location) <> "AP") /\
    (Substring "mexico city" location ->
       map_region (Some location) = "NA" /\ map_region (Some location) <> "LA") /\
    map_code REGION_MAPPING_pruned "NA" (Some location) = map_region (Some location).
Proof.
  intros location. split; [|split].
  - intros H. apply Substring_lower in H; [|reflexivity].
    rewrite (map_region_australia_lower _ H). split; [reflexivity|discriminate].
  - intros H. apply Substring_lower in H; [|reflexivity].
    rewrite (map_region_mexico_city_lower _ H). split; [reflexivity|discriminate].
  - unfold map_region. rewrite !map_code_Some.
    set (loc := lower location).
    unfold REGION_MAPPING, REGION_MAPPING_pruned. cbn [first_match].
    destruct (any_in _ loc) eqn:Hna; [reflexivity|].
    cbn [any_in existsb] in Hna.
    repeat (apply orb_false_elim in Hna; destruct Hna as [? Hna]).
    assert (Haus : contains "australia" loc = false).
    { apply contains_shadowed with (a := "us"); [now exists "a", "tralia"|assumption]. }
    assert (Hmex : contains "mexico city" loc = false).
    { apply contains_shadowed with (a := "mexico"); [now exists "", " city"|assumption]. }
    cbn [any_in existsb]. rewrite Haus, Hmex.
    rewrite !orb_false_l, ?orb_false_r. reflexivity.
Qed.

Lemma australia_and_mexico_city_shadowed_witness :
  Substring "australia" "Sydney, australia" /\
  Substring "mexico city" "mexico city, MX" /\
  map_region (Some "Sydney, australia") = "NA" /\
  map_region (Some "mexico city, MX") = "NA".
Proof.
  assert (Ha : Substring "australia" "Sydney, australia")
    by (exists "Sydney, ", ""; reflexivity).
  assert (Hm : Substring "mexico city" "mexico city, MX")
    by (exists "", ", MX"; reflexivity).
  split; [exact Ha|]. split; [exact Hm|]. split.
  - exact (proj1 (proj1 (australia_and_mexico_city_shadowed _) Ha)).
  - exact (proj1 (proj1 (proj2 (australia_and_mexico_city_shadowed _)) Hm)).
Defined.

(** ** The order on group keys *)

Section KeyOrder.

#[local] Instance Z_Order : Order Z.compare.
Proof.
  split.
  - apply Z.compare_eq.
  - apply Z.compare_refl.
  - intros a b. apply Z.compare_antisym.
  - intros a b c. rewrite !Z.compare_lt_iff. lia.
Qed.

Lemma ascii_compare_refl (a : ascii) : Ascii.compare a a = Eq.
Proof. apply N.compare_refl. Qed.

Lemma ascii_compare_trans (a b c : ascii) :
  Ascii.compare a b = Lt -> Ascii.compare b c = Lt -> Ascii.compare a c = Lt.
Proof. unfold Ascii.compare. rewrite !N.compare_lt_iff. lia. Qed.

Lemma string_compare_refl (s : string) : String.compare s s = Eq.
Proof.
  induction s as [|c s IH]; simpl; [reflexivity|].
  now rewrite ascii_compare_refl.
Qed.

Lemma string_compare_trans (a b c : string) :
  String.compare a b = Lt -> String.compare b c = Lt -> String.compare a c = Lt.
Proof.
  revert b c; induction a as [|x a IH]; intros [|y b] [|z c]; simpl;
    try discriminate; auto.
  destruct (Ascii.compare x y) eqn:Hxy; try discriminate;
    destruct (Ascii.compare y z) eqn:Hyz; try discriminate; intros H1 H2.
  - apply Ascii.compare_eq_iff in Hxy, Hyz. subst.
    rewrite ascii_compare_refl. eauto.
  - apply Ascii.compare_eq_iff in Hxy. subst. now rewrite Hyz.
  - apply Ascii.compare_eq_iff in Hyz. subst. now rewrite Hxy.
  - now rewrite (ascii_compare_trans _ _ _ Hxy Hyz).
Qed.

#[local] Instance string_Order : Order String.compare.
Proof.
  split.
  - apply String.compare_eq_iff.
  - apply string_compare_refl.
  - apply String.compare_antisym.
  - apply string_compare_trans.
Qed.

#[local] Instance pair_Order {A B : Type} (cA : A -> A -> comparison)
  (cB : B -> B -> comparison) `{!Order cA} `{!Order cB} :
  Order (pair_compare cA cB).
Proof.
  split; unfold pair_compare.
  - intros [a1 b1] [a2 b2]; simpl.
    destruct (cA a1 a2) eqn:Ha; simpl; try discriminate.
    intros Hb. apply cmp_eq in Ha, Hb. congruence.
  - intros [a b]; simpl. now rewrite !cmp_refl.
  - intros [a1 b1] [a2 b2]; simpl.
    rewrite (cmp_antisym (cmp := cA) a1 a2), (cmp_antisym (cmp := cB) b1 b2).
    now destruct (cA a2 a1).
  - intros [a1 b1] [a2 b2] [a3 b3]; simpl.
    destruct (cA a1 a2) eqn:H12; simpl; try discriminate;
      destruct (cA a2 a3) eqn:H23; simpl; try discriminate; intros H1 H2.
    + apply cmp_eq in H12, H23. subst. rewrite cmp_refl. simpl.
      eapply cmp_trans; eassumption.
    + apply cmp_eq in H12. subst. now rewrite H23.
    + apply cmp_eq in H23. subst. now rewrite H12.
    + now rewrite (cmp_trans _ _ _ H12 H23).
Qed.

(** An order is carried back along an injection. *)
Lemma Order_inj {A B : Type} (f : A -> B) (cA : A -> A -> comparison)
  (cB : B -> B -> comparison) :
  (forall a b, cA a b = cB (f a) (f b)) ->
  (forall a b, f a = f b -> a = b) ->
  Order cB -> Order cA.
Proof.
  intros Hc Hinj HB. split.
  - intros a b. rewrite Hc. intros H. apply Hinj. now apply cmp_eq in H.
  - intros a. rewrite Hc. apply cmp_refl.
  - intros a b. rewrite !Hc. apply cmp_antisym.
  - intros a b c. rewrite !Hc. apply cmp_trans.
Qed.

Lemma lex_assoc (a b c : comparison) : lex (lex a b) c = lex a (lex b c).
Proof. now destruct a. Qed.

#[local] Instance date_Order : Order date_compare.
Proof.
  apply (Order_inj (fun d => (year d, month d, day d)) _
           (pair_compare (pair_compare Z.compare Z.compare) Z.compare)).
  - intros a b. unfold date_compare, pair_compare. simpl.
    now rewrite lex_assoc.
  - intros [y1 m1 d1] [y2 m2 d2]; simpl. congruence.
  - exact _.
Qed.

#[global] Instance key_Order : Order key_compare.
Proof.
  apply (Order_inj (fun k : key => k) _
           (pair_compare (pair_compare date_compare String.compare)
              String.compare)).
  - intros [[d1 r1] p1] [[d2 r2] p2]. unfold key_compare, pair_compare.
    simpl. now rewrite lex_assoc.
  - auto.
  - exact _.
Qed.

Lemma key_compare_Eq (a b : key) : key_compare a b = Eq <-> a = b.
Proof.
  split; [apply cmp_eq | intros ->; apply cmp_refl].
Qed.

Lemma key_compare_Gt (a b : key) : key_compare a b = Gt <-> key_lt b a.
Proof.
  unfold key_lt. rewrite (cmp_antisym a b).
  destruct (key_compare b a); simpl; split; congruence.
Qed.

Lemma key_lt_irrefl (a : key) : ~ key_lt a a.
Proof. unfold key_lt. now rewrite cmp_refl. Qed.

Lemma key_lt_trans (a b c : key) : key_lt a b -> key_lt b c -> key_lt a c.
Proof. apply cmp_trans. Qed.

End KeyOrder.

(** ** Grouping *)

Section Grouping.

Lemma has_key_iff (k : key) (r : DF.t) :
  has_key k r = true <-> key_of r = Some k.
Proof.
  unfold has_key. destruct (key_of r) as [k'|]; [|split; discriminate].
  destruct (key_compare k k') eqn:Hc.
  - apply key_compare_Eq in Hc. subst. tauto.
  - split; [discriminate|]. intros [= ->]. now rewrite cmp_refl in Hc.
  - split; [discriminate|]. intros [= ->]. now rewrite cmp_refl in Hc.
Qed.

Lemma In_insert_key (x k : key) (ks : list key) :
  In k (insert_key x ks) <-> k = x \/ In k ks.
Proof.
  induction ks as [|k' ks IH]; simpl.
  - intuition.
  - destruct (key_compare x k') eqn:Hc; simpl.
    + apply key_compare_Eq in Hc. subst. intuition.
    + intuition.
    + rewrite IH. intuition.
Qed.

Lemma HdRel_insert_key (a x : key) (ks : list key) :
  key_lt a x -> HdRel key_lt a ks -> HdRel key_lt a (insert_key x ks).
Proof.
  intros Hax Hhd. destruct ks as [|k' ks]; simpl.
  - now constructor.
  - destruct (key_compare x k'); constructor; auto; now inversion Hhd.
Qed.

Lemma insert_key_Sorted (x : key) (ks : list key) :
  Sorted key_lt ks -> Sorted key_lt (insert_key x ks).
Proof.
  induction 1 as [|k' ks Hs IH Hhd]; simpl.
  - repeat constructor.
  - destruct (key_compare x k') eqn:Hc.
    + now constructor.
    + constructor; [now constructor | now constructor].
    + constructor; [exact IH|].
      apply HdRel_insert_key; [now apply key_compare_Gt | exact Hhd].
Qed.

Lemma group_keys_Sorted (df : list DF.t) : Sorted key_lt (group_keys df).
Proof.
  induction df as [|r df IH]; simpl; [constructor|].
  destruct (key_of r); [now apply insert_key_Sorted | exact IH].
Qed.

Lemma group_keys_StronglySorted (df : list DF.t) :
  StronglySorted key_lt (group_keys df).
Proof.
  apply Sorted_StronglySorted; [|apply group_keys_Sorted].
  intros a b c. apply key_lt_trans.
Qed.

Lemma StronglySorted_NoDup (ks : list key) :
  StronglySorted key_lt ks -> NoDup ks.
Proof.
  induction 1 as [|k ks Hs IH Hall]; constructor; auto.
  intros Hin. rewrite Forall_forall in Hall.
  exact (key_lt_irrefl k (Hall k Hin)).
Qed.

Lemma In_group_keys (k : key) (df : list DF.t) :
  In k (group_keys df) <-> exists r, In r df /\ key_of r = Some k.
Proof.
  induction df as [|r df IH]; simpl.
  - split; [tauto | intros (r & [] & _)].
  - destruct (key_of r) as [k'|] eqn:Hk.
    + rewrite In_insert_key, IH. split.
      * intros [-> | (r' & Hin & Hr')]; [exists r; auto | exists r'; auto].
      * intros (r' & [<- | Hin] & Hr').
        -- left. congruence.
        -- right. now exists r'.
    + rewrite IH. split.
      * intros (r' & Hin & Hr'). exists r'; auto.
      * intros (r' & [<- | Hin] & Hr'); [congruence | now exists r'].
Qed.

Lemma map_fst_groupby (df : list DF.t) :
  map fst (groupby df) = group_keys df.
Proof.
  unfold groupby. rewrite map_map. simpl. apply map_id.
Qed.

Lemma In_groupby (k : key) (g : list DF.t) (df : list DF.t) :
  In (k, g) (groupby df) <->
  In k (group_keys df) /\ g = filter (has_key k) df.
Proof.
  unfold groupby. rewrite in_map_iff. split.
  - intros (k' & [= <- <-] & Hin). auto.
  - intros [Hin ->]. now exists k.
Qed.

Lemma In_group (k : key) (df : list DF.t) (r : DF.t) :
  In r (filter (has_key k) df) <-> In r df /\ key_of r = Some k.
Proof. now rewrite filter_In, has_key_iff. Qed.

(** Rows without a date contribute neither a key nor a member. *)
Lemma group_keys_has_date (df : list DF.t) :
  group_keys (filter has_date df) = group_keys df.
Proof.
  induction df as [|r df IH]; simpl; [reflexivity|].
  destruct (has_date r) eqn:Hd; simpl.
  - now rewrite IH.
  - rewrite IH. unfold has_date in Hd. unfold key_of.
    now destruct (DF.date_utc r).
Qed.

Lemma group_has_date (k : key) (df : list DF.t) :
  filter (has_key k) (filter has_date df) = filter (has_key k) df.
Proof.
  induction df as [|r df IH]; simpl; [reflexivity|].
  destruct (has_date r) eqn:Hd; simpl.
  - now rewrite IH.
  - replace (has_key k r) with false; [exact IH|].
    unfold has_key, key_of. unfold has_date in Hd.
    now destruct (DF.date_utc r).
Qed.

Lemma groupby_has_date (df : list DF.t) :
  groupby (filter has_date df) = groupby df.
Proof.
  unfold groupby. rewrite group_keys_has_date.
  apply map_ext. intros k. now rewrite group_has_date.
Qed.

End Grouping.

(** ** The aggregation loop and the sort *)

Section Aggregation.

Lemma row_key_pulse_row (k : key) (g : list DF.t) :
  row_key (pulse_row k g) = k.
Proof. now destruct k as [[d r] p]. Qed.

Lemma role_count_pulse_row (k : key) (g : list DF.t) :
  Pulse.role_count_day (pulse_row k g) = List.length g.
Proof. now destruct k as [[d r] p]. Qed.

Lemma In_aggregate (row : Pulse.t) (groups : list (key * list DF.t)) :
  In row (aggregate groups) <->
  exists k g, In (k, g) groups /\ 5 <= List.length g /\ row = pulse_row k g.
Proof.
  induction groups as [|[k g] groups IH]; simpl.
  - split; [tauto | intros (k & g & [] & _)].
  - destruct (Nat.ltb_spec (List.length g) 5) as [Hlt | Hge].
    + rewrite IH. split.
      * intros (k' & g' & Hin & H). exists k', g'. auto.
      * intros (k' & g' & [[= <- <-] | Hin] & Hlen & Hrow); [lia|].
        now exists k', g'.
    + simpl. rewrite IH. split.
      * intros [<- | (k' & g' & Hin & H)].
        -- exists k, g. auto.
        -- exists k', g'. auto.
      * intros (k' & g' & [[= <- <-] | Hin] & Hlen & Hrow); [now left|].
        right. now exists k', g'.
Qed.

(** Every emitted row is the row of a group of the frame with 5 rows or
    more; this is how the per-row theorems below are proved. *)
Lemma bucket_and_aggregate_Forall (P : Pulse.t -> Prop) (df : list DF.t) :
  (forall k, In k (group_keys df) ->
             5 <= List.length (filter (has_key k) df) ->
             P (pulse_row k (filter (has_key k) df))) ->
  Forall P (bucket_and_aggregate df).
Proof.
  intros H. apply Forall_forall. intros row Hin.
  apply In_aggregate in Hin. destruct Hin as (k & g & Hin & Hlen & ->).
  apply In_groupby in Hin. destruct Hin as [Hk ->]. now apply H.
Qed.

Lemma In_bucket_and_aggregate (row : Pulse.t) (df : list DF.t) :
  In row (bucket_and_aggregate df) <->
  exists k, In k (group_keys df) /\
            5 <= List.length (filter (has_key k) df) /\
            row = pulse_row k (filter (has_key k) df).
Proof.
  unfold bucket_and_aggregate. rewrite In_aggregate. split.
  - intros (k & g & Hin & Hlen & ->). apply In_groupby in Hin.
    destruct Hin as [Hk ->]. now exists k.
  - intros (k & Hk & Hlen & ->). exists k, (filter (has_key k) df).
    repeat split; auto. now apply In_groupby.
Qed.

Lemma aggregate_keys_Forall (R : key -> Prop) (groups : list (key * list DF.t)) :
  Forall R (map fst groups) -> Forall R (map row_key (aggregate groups)).
Proof.
  induction groups as [|[k g] groups IH]; simpl; [constructor|].
  intros H. inversion H as [|? ? Hk Hrest]; subst.
  destruct (List.length g <? 5)%nat; simpl; auto.
  constructor; [now rewrite row_key_pulse_row | auto].
Qed.

Lemma aggregate_StronglySorted (groups : list (key * list DF.t)) :
  StronglySorted key_lt (map fst groups) ->
  StronglySorted key_lt (map row_key (aggregate groups)).
Proof.
  induction groups as [|[k g] groups IH]; simpl; [constructor|].
  intros H. apply StronglySorted_inv in H. destruct H as [Hs Hall].
  destruct (List.length g <? 5)%nat; simpl; auto.
  constructor; [auto|]. rewrite row_key_pulse_row.
  now apply aggregate_keys_Forall.
Qed.

Lemma bucket_and_aggregate_StronglySorted (df : list DF.t) :
  StronglySorted key_lt (map row_key (bucket_and_aggregate df)).
Proof.
  apply aggregate_StronglySorted. rewrite map_fst_groupby.
  apply group_keys_StronglySorted.
Qed.

(** Sorting rows that are already in strictly ascending key order leaves
    them as they are. *)
Lemma sort_rows_sorted (l : list Pulse.t) :
  Sorted key_lt (map row_key l) -> sort_rows l = l.
Proof.
  induction l as [|r l IH]; [reflexivity|].
  cbn [map]. intros H. inversion H as [|? ? Hs Hhd]; subst.
  unfold sort_rows in *. cbn [fold_right]. rewrite (IH Hs).
  destruct l as [|r' l]; [reflexivity|].
  cbn [map] in Hhd. inversion Hhd as [|? ? Hlt]; subst.
  unfold key_lt in Hlt. cbn [insert_row]. now rewrite Hlt.
Qed.

(** The sort always yields rows in ascending key order. *)
Lemma insert_row_Sorted (r : Pulse.t) (l : list Pulse.t) :
  Sorted (fun a b => key_compare a b <> Gt) (map row_key l) ->
  Sorted (fun a b => key_compare a b <> Gt) (map row_key (insert_row r l)).
Proof.
  induction l as [|r' l IH]; cbn [insert_row map]; intros H.
  - repeat constructor.
  - inversion H as [|? ? Hs Hhd]; subst.
    destruct (key_compare (row_key r) (row_key r')) eqn:Hc; cbn [map].
    + constructor; [exact H|]. constructor. congruence.
    + constructor; [exact H|]. constructor. congruence.
    + constructor; [now apply IH|].
      assert (Hr : key_compare (row_key r') (row_key r) <> Gt).
      { rewrite (cmp_antisym (row_key r') (row_key r)), Hc. discriminate. }
      destruct l as [|r'' l]; cbn [insert_row map].
      * now constructor.
      * destruct (key_compare (row_key r) (row_key r'')); cbn [map];
          constructor; auto; now inversion Hhd.
Qed.

Lemma sort_rows_Sorted (l : list Pulse.t) :
  Sorted (fun a b => key_compare a b <> Gt) (map row_key (sort_rows l)).
Proof.
  induction l as [|r l IH]; [constructor|].
  unfold sort_rows. cbn [fold_right]. now apply insert_row_Sorted.
Qed.

Lemma emit_cases (df : list DF.t) :
  emit df =
  match bucket_and_aggregate df with
  | [] => Raise (KeyError "date_utc")
  | _ :: _ => Ok (bucket_and_aggregate df)
  end.
Proof.
  unfold emit.
  pose proof (bucket_and_aggregate_StronglySorted df) as Hs.
  apply StronglySorted_Sorted in Hs.
  destruct (bucket_and_aggregate df) as [|row rest]; [reflexivity|].
  unfold DataFrame_of, sort_values. cbn [columns rows].
  change (missing_label _ PULSE_COLUMNS) with (@None string). cbv iota.
  now rewrite (sort_rows_sorted _ Hs).
Qed.

Lemma emit_Ok (df : list DF.t) (out : list Pulse.t) :
  emit df = Ok out <-> out <> [] /\ out = bucket_and_aggregate df.
Proof.
  rewrite emit_cases. destruct (bucket_and_aggregate df) as [|row rest].
  - split; [discriminate | intros [H ->]; now elim H].
  - split; [intros [= <-]; split; [discriminate | reflexivity]
           | intros [_ ->]; reflexivity].
Qed.

Lemma emit_has_date (df : list DF.t) :
  emit (filter has_date df) = emit df.
Proof.
  unfold emit, bucket_and_aggregate. now rewrite groupby_has_date.
Qed.

End Aggregation.

(** ** The suppression floor, the output order and undated rows *)

Section Output.

Variable to_datetime : list cell -> cell -> option date.
Variable polarity : string -> outcome.

Lemma filter_length_le {A : Type} (f : A -> bool) (l : list A) :
  List.length (filter f l) <= List.length l.
Proof.
  induction l as [|a l IH]; simpl; [lia|]. destruct (f a); simpl; lia.
Qed.

Lemma bucket_and_aggregate_small (df : list DF.t) :
  List.length df < 5 -> bucket_and_aggregate df = [].
Proof.
  intros Hlen. destruct (bucket_and_aggregate df) as [|row rest] eqn:Hb;
    [reflexivity|].
  assert (Hin : In row (bucket_and_aggregate df)) by (rewrite Hb; now left).
  apply In_bucket_and_aggregate in Hin. destruct Hin as (k & _ & Hge & _).
  pose proof (filter_length_le (has_key k) df). lia.
Qed.

Lemma derive_length (raw : list Raw.t) :
  List.length (derive to_datetime polarity raw) = List.length raw.
Proof. unfold derive. apply length_map. Qed.

(** When [process] does hand rows to [to_csv], they are the rows of
    [bucket_and_aggregate], there is at least one, and their keys ascend
    strictly. *)
Lemma process_Ok (raw : list Raw.t) (out : list Pulse.t) :
  process to_datetime polarity raw = Ok out ->
  out <> [] /\
  out = bucket_and_aggregate (derive to_datetime polarity raw) /\
  StronglySorted key_lt (map row_key out) /\
  NoDup (map row_key out).
Proof.
  unfold process. intros H. apply emit_Ok in H. destruct H as [Hne ->].
  repeat split; auto.
  - apply bucket_and_aggregate_StronglySorted.
  - apply StronglySorted_NoDup, bucket_and_aggregate_StronglySorted.
Qed.

Lemma process_Raise (raw : list Raw.t) (e : exn) :
  process to_datetime polarity raw = Raise e <->
  e = KeyError "date_utc" /\
  bucket_and_aggregate (derive to_datetime polarity raw) = [].
Proof.
  unfold process. rewrite emit_cases.
  destruct (bucket_and_aggregate _) as [|row rest].
  - split; [intros [= <-]; auto | intros [-> _]; reflexivity].
  - split; [discriminate | intros [_ H]; discriminate].
Qed.

End Output.

(** C1. In the result of [bucket_and_aggregate], every row carries as
    [role_count_day] the number of rows of the frame that have the row's key,
    and that number is at least 5; a key that fewer than 5 rows of the frame
    have is the key of no row of the result. *)
Theorem suppression_floor :
  forall df : list DF.t,
    Forall (fun row =>
              Pulse.role_count_day row =
                List.length (filter (has_key (row_key row)) df) /\
              5 <= Pulse.role_count_day row)
           (bucket_and_aggregate df) /\
    (forall k : key,
        List.length (filter (has_key k) df) < 5 ->
        forall row, In row (bucket_and_aggregate df) -> row_key row <> k).
Proof.
  intros df.
  assert (H : Forall (fun row =>
              Pulse.role_count_day row =
                List.length (filter (has_key (row_key row)) df) /\
              5 <= Pulse.role_count_day row)
           (bucket_and_aggregate df)).
  { apply bucket_and_aggregate_Forall. intros k _ Hge.
    now rewrite row_key_pulse_row, role_count_pulse_row. }
  split; [exact H|].
  intros k Hlt row Hin Hk. rewrite Forall_forall in H.
  destruct (H row Hin) as [Hcount Hge]. rewrite Hk in Hcount. lia.
Qed.

Lemma suppression_floor_witness :
  let df := derive sample_to_datetime sample_polarity
              (listing "2024-01-02" "London" "$500" "Day player" ::
               listing "2024-01-02" "London" "$700" "Stand-in" ::
               six_listings) in
  let k : key := (mkdate 2024 1 2, "EU", "F") in
  List.length (filter (has_key k) df) = 2 /\
  List.length (bucket_and_aggregate df) = 1 /\
  forall row, In row (bucket_and_aggregate df) -> row_key row <> k.
Proof.
  intros df k.
  assert (Hlen : List.length (filter (has_key k) df) = 2) by reflexivity.
  split; [exact Hlen|]. split; [reflexivity|].
  apply (proj2 (suppression_floor df) k). rewrite Hlen. lia.
Defined.

(** C2. On the four listings of one day, and on a frame without rows, no
    group reaches 5 rows, [results] is empty, the frame built from it has no
    column, and [sort_values] raises [KeyError] on its first label:
    [process] hands no rows to [to_csv], not even an empty set. *)
Theorem process_all_suppressed_raises :
  forall (to_datetime : list cell -> cell -> option date)
         (polarity : string -> outcome),
    process to_datetime polarity four_listings = Raise (KeyError "date_utc") /\
    process to_datetime polarity [] = Raise (KeyError "date_utc").
Proof.
  intros to_datetime polarity.
  split; apply process_Raise; (split; [reflexivity|]);
    apply bucket_and_aggregate_small; rewrite derive_length; simpl; lia.
Qed.

(** C3. A listing whose posted date is coerced to [NaT] is a member of no
    group, and [process] returns what it returns on the frame without the
    undated rows; the group of a key holds exactly the rows of the frame
    with that key, in the frame's order, and every row that has a key is in
    the one group of its key. *)
Theorem unparseable_dates_excluded :
  forall (to_datetime : list cell -> cell -> option date)
         (polarity : string -> outcome) (raw : list Raw.t),
    let posted := map Raw.posted_date raw in
    let df := derive to_datetime polarity raw in
    (forall r : Raw.t,
        In r raw ->
        to_datetime posted (Raw.posted_date r) = None ->
        forall k g, In (k, g) (groupby df) ->
                    ~ In (derive_row to_datetime polarity posted r) g) /\
    process to_datetime polarity raw = emit (filter has_date df) /\
    (forall k g, In (k, g) (groupby df) ->
                 g = filter (has_key k) df /\
                 forall r, In r g <-> In r df /\ key_of r = Some k) /\
    (forall r k, In r df -> key_of r = Some k ->
                 exists g, In (k, g) (groupby df) /\ In r g) /\
    NoDup (map fst (groupby df)).
Proof.
  intros to_datetime polarity raw posted df.
  split; [|split; [|split; [|split]]].
  - intros r _ Hnat k g Hg Hin.
    apply In_groupby in Hg. destruct Hg as [_ ->].
    apply In_group in Hin. destruct Hin as [_ Hk].
    unfold key_of in Hk. simpl in Hk. now rewrite Hnat in Hk.
  - unfold process. symmetry. apply emit_has_date.
  - intros k g Hg. apply In_groupby in Hg. destruct Hg as [_ ->].
    split; [reflexivity|]. intros r. apply In_group.
  - intros r k Hin Hk. exists (filter (has_key k) df). split.
    + apply In_groupby. split; [|reflexivity].
      apply In_group_keys. now exists r.
    + now apply In_group.
  - rewrite map_fst_groupby.
    apply StronglySorted_NoDup, group_keys_StronglySorted.
Qed.

Lemma unparseable_dates_excluded_witness :
  let raw := six_listings in
  let posted := map Raw.posted_date raw in
  let df := derive sample_to_datetime sample_polarity raw in
  let r := listing "someday" "Los Angeles" "$900" "Undated role" in
  let k : key := (mkdate 2024 1 1, "NA", "F") in
  In r raw /\
  sample_to_datetime posted (Raw.posted_date r) = None /\
  In (k, filter (has_key k) df) (groupby df) /\
  ~ In (derive_row sample_to_datetime sample_polarity posted r)
       (filter (has_key k) df).
Proof.
  intros raw posted df r k.
  assert (Hr : In r raw) by (right; left; reflexivity).
  assert (Hnat : sample_to_datetime posted (Raw.posted_date r) = None)
    by reflexivity.
  assert (Hg : In (k, filter (has_key k) df) (groupby df))
    by (left; reflexivity).
  split; [exact Hr|]. split; [exact Hnat|]. split; [exact Hg|].
  exact (proj1 (unparseable_dates_excluded sample_to_datetime sample_polarity raw)
           r Hr Hnat k _ Hg).
Defined.

(** ** Rounding and clamping *)

Section Rounding.

Local Open Scope Q_scope.

(** The rounded value is one of the two integers around [x]. *)
Lemma round_half_even_cases (x : Q) :
  let f := Qfloor x in
  (round_half_even x = f /\ x - inject_Z f <= 1 # 2) \/
  (round_half_even x = (f + 1)%Z /\ 1 # 2 <= x - inject_Z f).
Proof.
  intros f. unfold round_half_even. fold f.
  destruct (Qcompare_spec (x - inject_Z f) (1 # 2)) as [He | Hl | Hg].
  - destruct (Z.even f); [left | right]; split; auto; lra.
  - left. split; [reflexivity | lra].
  - right. split; [reflexivity | lra].
Qed.

(** [round] picks a nearest integer. *)
Lemma round_half_even_near (x : Q) :
  Qabs (inject_Z (round_half_even x) - x) <= 1 # 2.
Proof.
  apply Qabs_Qle_condition.
  pose proof (Qfloor_le x) as Hlo. pose proof (Qlt_floor x) as Hhi.
  rewrite inject_Z_plus in Hhi.
  destruct (round_half_even_cases x) as [[-> H] | [-> H]];
    rewrite ?inject_Z_plus; change (inject_Z 1) with 1 in *; lra.
Qed.


Lemma round_half_even_ge (a : Z) (x : Q) :
  inject_Z a <= x -> (a <= round_half_even x)%Z.
Proof.
  intros H. apply Qfloor_resp_le in H. rewrite Qfloor_Z in H.
  destruct (round_half_even_cases x) as [[-> _] | [-> _]]; lia.
Qed.

Lemma round_half_even_le (b : Z) (x : Q) :
  x <= inject_Z b -> (round_half_even x <= b)%Z.
Proof.
  intros H. pose proof (Qfloor_resp_le _ _ H) as Hf. rewrite Qfloor_Z in Hf.
  destruct (round_half_even_cases x) as [[-> _] | [-> Hhalf]]; [lia|].
  destruct (Z.eq_dec (Qfloor x) b) as [Heq | Hne]; [|lia].
  rewrite Heq in Hhalf. lra.
Qed.

(** Scaling by a positive integer, rounding, and scaling back keeps a value
    between the integers it was between. *)
Lemma scaled_round_bounds (s a b : Z) (x : Q) :
  (0 < s)%Z ->
  inject_Z a <= x <= inject_Z b ->
  inject_Z a <= inject_Z (round_half_even (x * inject_Z s)) / inject_Z s
    <= inject_Z b.
Proof.
  intros Hs [Ha Hb].
  assert (Hs' : 0 < inject_Z s) by (change 0 with (inject_Z 0); now rewrite <- Zlt_Qlt).
  split.
  - apply Qle_shift_div_l; [exact Hs'|].
    rewrite <- inject_Z_mult, <- Zle_Qle. apply round_half_even_ge.
    rewrite inject_Z_mult. apply Qmult_le_compat_r; [exact Ha | lra].
  - apply Qle_shift_div_r; [exact Hs'|].
    rewrite <- inject_Z_mult, <- Zle_Qle. apply round_half_even_le.
    rewrite inject_Z_mult. apply Qmult_le_compat_r; [exact Hb | lra].
Qed.

Lemma round_ndigits_1_bounds (a b : Z) (x : Q) :
  inject_Z a <= x <= inject_Z b ->
  inject_Z a <= round_ndigits x 1 <= inject_Z b.
Proof. apply (scaled_round_bounds 10); lia. Qed.

Lemma round_ndigits_2_bounds (a b : Z) (x : Q) :
  inject_Z a <= x <= inject_Z b ->
  inject_Z a <= round_ndigits x 2 <= inject_Z b.
Proof. apply (scaled_round_bounds 100); lia. Qed.

(** Rounding to one decimal moves a value by at most half a tenth. *)
Lemma round_ndigits_1_near (x : Q) :
  Qabs (round_ndigits x 1 - x) <= 1 # 20.
Proof.
  unfold round_ndigits. change (inject_Z (10 ^ Z.of_nat 1)) with 10.
  pose proof (round_half_even_near (x * 10)) as H.
  apply Qabs_Qle_condition in H. apply Qabs_Qle_condition.
  unfold Qdiv. change (/ 10) with (1 # 10). lra.
Qed.

Lemma py_min_spec (a b : Q) :
  (py_min a b = a /\ a <= b) \/ (py_min a b = b /\ b < a).
Proof.
  unfold py_min. destruct (Qcompare_spec b a); [left | right | left];
    split; auto; lra.
Qed.

Lemma py_max_spec (a b : Q) :
  (py_max a b = a /\ b <= a) \/ (py_max a b = b /\ a < b).
Proof.
  unfold py_max. destruct (Qcompare_spec b a); [left | left | right];
    split; auto; lra.
Qed.

(** [clamp] lands in the interval, whatever value it is given. *)
Lemma clamp_bounds (value min_val max_val : Q) :
  min_val <= max_val ->
  min_val <= clamp value min_val max_val <= max_val.
Proof.
  intros H. unfold clamp.
  destruct (py_min_spec max_val value) as [[-> ?] | [-> ?]];
    destruct (py_max_spec min_val max_val) as [[E1 ?] | [E1 ?]];
    destruct (py_max_spec min_val value) as [[E2 ?] | [E2 ?]];
    rewrite ?E1, ?E2; lra.
Qed.

End Rounding.

(** ** The statistics of a group *)

Section Statistics.

Local Open Scope Q_scope.

Lemma In_valid_rates (v : Q) (group : list DF.t) :
  In v (valid_rates group) <-> exists r, In r group /\ DF.rate_val r = Some v.
Proof.
  induction group as [|r group IH]; simpl.
  - split; [tauto | intros (r & [] & _)].
  - destruct (DF.rate_val r) as [w|] eqn:Hr; simpl; rewrite IH; split.
    + intros [<- | (r' & Hin & Hr')]; [exists r; auto | exists r'; auto].
    + intros (r' & [<- | Hin] & Hr'); [left; congruence | right; now exists r'].
    + intros (r' & Hin & Hr'). exists r'; auto.
    + intros (r' & [<- | Hin] & Hr'); [congruence | now exists r'].
Qed.

Lemma valid_rates_nil (group : list DF.t) :
  valid_rates group = [] <-> forall r, In r group -> DF.rate_val r = None.
Proof.
  induction group as [|r group IH]; simpl.
  - split; [intros _ r [] | reflexivity].
  - destruct (DF.rate_val r) as [w|] eqn:Hr.
    + split; [discriminate|]. intros H. specialize (H r (or_introl eq_refl)).
      congruence.
    + rewrite IH. split.
      * intros H r' [<- | Hin]; auto.
      * intros H r' Hin. apply H. now right.
Qed.

Lemma insert_Q_Permutation (x : Q) (l : list Q) :
  Permutation (x :: l) (insert_Q x l).
Proof.
  induction l as [|y l IH]; simpl; [reflexivity|].
  destruct (Qle_bool x y); [reflexivity|].
  rewrite perm_swap. now constructor.
Qed.

Lemma sort_Q_Permutation (l : list Q) : Permutation l (sort_Q l).
Proof.
  induction l as [|x l IH]; simpl; [constructor|].
  rewrite <- insert_Q_Permutation. now constructor.
Qed.

Lemma insert_Q_Sorted (x : Q) (l : list Q) :
  Sorted Qle l -> Sorted Qle (insert_Q x l).
Proof.
  induction 1 as [|y l Hs IH Hhd]; simpl.
  - repeat constructor.
  - destruct (Qle_bool x y) eqn:Hxy.
    + apply Qle_bool_iff in Hxy. repeat constructor; auto.
    + assert (Hyx : y <= x).
      { destruct (Qlt_le_dec y x) as [H | H]; [lra|].
        apply Qle_bool_iff in H. congruence. }
      constructor; [exact IH|].
      destruct l as [|z l]; simpl.
      * now constructor.
      * destruct (Qle_bool x z); constructor; auto. now inversion Hhd.
Qed.

Lemma sort_Q_Sorted (l : list Q) : Sorted Qle (sort_Q l).
Proof.
  induction l as [|x l IH]; simpl; [constructor|].
  now apply insert_Q_Sorted.
Qed.

Lemma median_rate_pulse_row (k : key) (g : list DF.t) :
  Pulse.median_rate_day_usd (pulse_row k g) =
  match valid_rates g with
  | [] => None
  | _ :: _ => Some (round_half_even (median (valid_rates g) / 250) * 250)%Z
  end.
Proof. destruct k as [[d r] p]. reflexivity. Qed.

Lemma shares_pulse_row (k : key) (g : list DF.t) :
  Pulse.lead_share_pct_day (pulse_row k g) =
    round_ndigits (clamp (share DF.is_lead g) 0 1) 1 /\
  Pulse.union_share_pct_day (pulse_row k g) =
    round_ndigits (clamp (share DF.is_union g) 0 1) 1 /\
  Pulse.theme_ai_share_pct_day (pulse_row k g) =
    round_ndigits (clamp (share DF.has_ai g) 0 1) 1.
Proof. destruct k as [[d r] p]. repeat split. Qed.

Lemma unit_interval_after_clamp (v : Q) :
  0 <= round_ndigits (clamp v 0 1) 1 <= 1.
Proof.
  apply (round_ndigits_1_bounds 0 1). apply clamp_bounds.
  unfold Qle. simpl. lia.
Qed.

End Statistics.

Lemma six_listings_median_rate :
  option_map (map Pulse.median_rate_day_usd)
    (match process sample_to_datetime sample_polarity six_listings with
     | Ok out => Some out
     | Raise _ => None
     end) = Some [Some 1250%Z].
Proof. vm_compute. reflexivity. Qed.

Lemma sample_polarity_in_range :
  forall s p, sample_polarity s = Returned p -> (-1 <= p <= 1)%Q.
Proof.
  intros s p. unfold sample_polarity.
  destruct (String.eqb s "Background"); [discriminate|].
  intros [= <-]. lra.
Qed.

(** * Further properties of the classifiers *)

Section MoreClassifiers.

Lemma lower_char_idem (c : ascii) : lower_char (lower_char c) = lower_char c.
Proof.
  unfold lower_char.
  destruct ((65 <=? nat_of_ascii c) && (nat_of_ascii c <=? 90))%nat eqn:Hup;
    [|now rewrite Hup].
  apply andb_true_iff in Hup. destruct Hup as [Hlo Hhi].
  apply Nat.leb_le in Hlo, Hhi.
  rewrite nat_ascii_embedding by lia.
  replace ((65 <=? nat_of_ascii c + 32) && (nat_of_ascii c + 32 <=? 90))%nat
    with false; [reflexivity|].
  symmetry. apply andb_false_iff. right. apply Nat.leb_gt. lia.
Qed.

Lemma lower_idem (s : string) : lower (lower s) = lower s.
Proof.
  induction s as [|c s IH]; simpl; [reflexivity|].
  now rewrite lower_char_idem, IH.
Qed.

Lemma first_match_code (items : list (string * list string)) text code :
  first_match items text = Some code -> In code (map fst items).
Proof.
  induction items as [|[c kws] rest IH]; simpl; [discriminate|].
  destruct (any_in kws text); [intros [= <-]; now left | auto].
Qed.

Lemma map_code_range (mapping : list (string * list string)) default field :
  In (map_code mapping default field) (default :: map fst mapping).
Proof.
  destruct field as [v|]; simpl; [|now left].
  destruct (first_match mapping (lower v)) as [code|] eqn:Hfm; [|now left].
  right. eapply first_match_code; eassumption.
Qed.

Lemma map_project_type_Some (project_type : string) :
  let pt := lower project_type in
  map_project_type (Some project_type) =
  if any_in ["film"; "movie"; "feature"] pt then "F"
  else if any_in ["tv"; "series"; "streaming"; "show"; "episode"] pt then "T"
  else if any_in ["commercial"; "advertisement"; "ad"] pt then "C"
  else "V".
Proof.
  intros pt. unfold map_project_type. rewrite map_code_Some. fold pt.
  unfold PROJECT_TYPE_MAPPING. cbn [first_match].
  repeat (match goal with |- context [any_in ?k pt] =>
            destruct (any_in k pt); try reflexivity end).
Qed.

End MoreClassifiers.

(** X1. [map_project_type] decides by precedence, not by the best match: a
    text with a film keyword is F whatever else it mentions, a text with a
    TV keyword and no film keyword is T, a text with a commercial keyword
    and neither of the former is C, and V is left for texts with no keyword
    and for a missing field. *)
Theorem map_project_type_precedence :
  forall project_type : string,
    let pt := lower project_type in
    let F := ["film"; "movie"; "feature"] in
    let T := ["tv"; "series"; "streaming"; "show"; "episode"] in
    let C := ["commercial"; "advertisement"; "ad"] in
    (Matches F pt -> map_project_type (Some project_type) = "F") /\
    (~ Matches F pt -> Matches T pt ->
       map_project_type (Some project_type) = "T") /\
    (~ Matches F pt -> ~ Matches T pt -> Matches C pt ->
       map_project_type (Some project_type) = "C") /\
    (~ Matches F pt -> ~ Matches T pt -> ~ Matches C pt ->
       map_project_type (Some project_type) = "V").
Proof.
  intros project_type pt F T C. rewrite map_project_type_Some. fold pt F T C.
  destruct (any_in F pt) eqn:HF;
    [apply any_in_Matches in HF | apply any_in_false_Matches in HF];
    (destruct (any_in T pt) eqn:HT;
     [apply any_in_Matches in HT | apply any_in_false_Matches in HT]);
    (destruct (any_in C pt) eqn:HC;
     [apply any_in_Matches in HC | apply any_in_false_Matches in HC]);
    repeat split; intros; try reflexivity; contradiction.
Qed.

Lemma map_project_type_precedence_witness :
  Matches ["film"; "movie"; "feature"] (lower "TV Movie of the Week") /\
  Matches ["tv"; "series"; "streaming"; "show"; "episode"]
          (lower "TV Movie of the Week") /\
  map_project_type (Some "TV Movie of the Week") = "F".
Proof.
  assert (HF : Matches ["film"; "movie"; "feature"] (lower "TV Movie of the Week")).
  { exists "movie". split; [simpl; auto|]. exists "tv ", " of the week". reflexivity. }
  split; [exact HF|]. split.
  - exists "tv". split; [simpl; auto|]. exists "", " movie of the week". reflexivity.
  - exact (proj1 (map_project_type_precedence "TV Movie of the Week") HF).
Defined.

(** X2. A project type that contains the letters "ad" anywhere, also inside a
    word such as Broadway or radio, and has no film or TV keyword, is
    classified C; since "advertisement" contains "ad", that keyword decides
    nothing: without it [map_project_type] gives the same code on every
    input. *)
Theorem map_project_type_ad_substring :
  forall project_type : string,
    (Substring "ad" (lower project_type) ->
     ~ Matches ["film"; "movie"; "feature"] (lower project_type) ->
     ~ Matches ["tv"; "series"; "streaming"; "show"; "episode"]
         (lower project_type) ->
     map_project_type (Some project_type) = "C") /\
    map_code PROJECT_TYPE_MAPPING_pruned "V" (Some project_type) =
      map_project_type (Some project_type).
Proof.
  intros project_type. split.
  - intros Had HF HT. rewrite map_project_type_Some.
    apply any_in_false_Matches in HF, HT. rewrite HF, HT.
    replace (any_in _ (lower project_type)) with true; [reflexivity|].
    symmetry. apply any_in_Matches.
    exists "ad". split; [simpl; auto | exact Had].
  - unfold map_project_type. rewrite !map_code_Some.
    set (pt := lower project_type).
    unfold PROJECT_TYPE_MAPPING, PROJECT_TYPE_MAPPING_pruned. cbn [first_match].
    destruct (any_in _ pt); [reflexivity|].
    destruct (any_in _ pt); [reflexivity|].
    cbn [any_in existsb].
    destruct (contains "ad" pt) eqn:Had.
    + now rewrite !orb_true_r.
    + rewrite (contains_shadowed "ad" "advertisement" pt); auto.
      now exists "", "vertisement".
Qed.

Lemma map_project_type_ad_substring_witness :
  Substring "ad" (lower "Broadway musical") /\
  map_project_type (Some "Broadway musical") = "C".
Proof.
  assert (Had : Substring "ad" (lower "Broadway musical"))
    by (exists "bro", "way musical"; reflexivity).
  split; [exact Had|].
  apply (proj1 (map_project_type_ad_substring "Broadway musical") Had).
  - intros (k & Hk & Hs). apply contains_Substring in Hs.
    simpl in Hk. destruct Hk as [<- | [<- | [<- | []]]]; discriminate Hs.
  - intros (k & Hk & Hs). apply contains_Substring in Hs.
    simpl in Hk.
    destruct Hk as [<- | [<- | [<- | [<- | [<- | []]]]]]; discriminate Hs.
Defined.

(** X3. Whatever the field holds, missing or not, [map_region] answers one
    of NA, EU, AP, LA and [map_project_type] one of F, T, C, V. *)
Theorem classifier_codes_closed :
  forall field : cell,
    In (map_region field) ["NA"; "EU"; "AP"; "LA"] /\
    In (map_project_type field) ["F"; "T"; "C"; "V"].
Proof.
  intros field. split.
  - destruct (map_code_range REGION_MAPPING "NA" field) as [H | H].
    + left. exact H.
    + exact H.
  - destruct (map_code_range PROJECT_TYPE_MAPPING "V" field) as [H | H].
    + right. right. right. left. exact H.
    + exact H.
Qed.

(** X4. The five keyword classifiers do not see letter case: lower-casing
    the text first changes none of their answers. *)
Theorem classifiers_ignore_case :
  forall text : string,
    map_region (Some (lower text)) = map_region (Some text) /\
    map_project_type (Some (lower text)) = map_project_type (Some text) /\
    is_lead (Some (lower text)) = is_lead (Some text) /\
    is_union (Some (lower text)) = is_union (Some text) /\
    has_ai_keywords (Some (lower text)) = has_ai_keywords (Some text).
Proof.
  intros text.
  unfold map_region, map_project_type, map_code, is_lead, is_union,
    has_ai_keywords.
  now rewrite lower_idem.
Qed.

(** X5. [is_lead] answers false on a missing role type; on a text it answers
    true exactly when the lower-cased text contains one of lead, principal,
    main, starring, anywhere, also inside a longer word. *)
Theorem is_lead_iff :
  is_lead None = false /\
  forall role_type : string,
    is_lead (Some role_type) = true <->
    exists k, In k ["lead"; "principal"; "main"; "starring"] /\
              Substring k (lower role_type).
Proof.
  split; [reflexivity|]. intros role_type. unfold is_lead.
  now rewrite any_in_Matches.
Qed.

(** * The rate extractor *)

Section RateExtractor.

Lemma take_digits_app (ds rest : string) :
  all_digits ds = true -> no_leading_digit rest = true ->
  take_digits (ds ++ rest) = (string_digits ds, rest).
Proof.
  intros Hds Hrest. induction ds as [|c ds IH]; simpl in *.
  - destruct rest as [|c rest]; [reflexivity|]. simpl in Hrest.
    apply negb_true_iff in Hrest. simpl. now rewrite Hrest.
  - apply andb_true_iff in Hds. destruct Hds as [Hc Hds].
    now rewrite Hc, (IH Hds).
Qed.

Lemma first_number_skip (prefix s : string) :
  no_digits prefix = true -> first_number (prefix ++ s) = first_number s.
Proof.
  induction prefix as [|c prefix IH]; [reflexivity|].
  cbn [no_digits]. intros H. apply andb_true_iff in H. destruct H as [Hc Hp].
  apply negb_true_iff in Hc. cbn [append first_number]. rewrite Hc. auto.
Qed.

Lemma first_number_None (s : string) :
  first_number s = None <-> no_digits s = true.
Proof.
  induction s as [|c s IH]; [split; reflexivity|].
  cbn [first_number no_digits]. destruct (is_digit c) eqn:Hc; cbn [negb andb].
  - split; [|discriminate].
    destruct (take_digits (String c s)) as [ints rest].
    destruct rest as [|d rest]; [discriminate|].
    destruct (Ascii.ascii_dec d "."%char) as [-> | Hd]; [discriminate|].
    destruct d as [[] [] [] [] [] [] [] []]; discriminate.
  - exact IH.
Qed.

(** What [first_number] finds when the text starts with a digit. *)
Lemma first_number_at_digits (ds rest : string) :
  all_digits ds = true -> ds <> EmptyString -> no_leading_digit rest = true ->
  first_number (ds ++ rest) =
  match rest with
  | String "."%char rest' => Some (string_digits ds, fst (take_digits rest'))
  | _ => Some (string_digits ds, [])
  end.
Proof.
  intros Hds Hne Hrest. destruct ds as [|c ds]; [now elim Hne|].
  pose proof (take_digits_app _ _ Hds Hrest) as Htd.
  cbn [all_digits] in Hds. apply andb_true_iff in Hds. destruct Hds as [Hc _].
  cbn [append first_number] in *. rewrite Hc, Htd. reflexivity.
Qed.

Lemma digit_value_nonneg (c : ascii) : (0 <= digit_value c)%Z.
Proof. unfold digit_value. lia. Qed.

Lemma take_digits_nonneg (s : string) :
  Forall (fun d => (0 <= d)%Z) (fst (take_digits s)).
Proof.
  induction s as [|c s IH]; simpl; [constructor|].
  destruct (is_digit c); [|constructor].
  destruct (take_digits s) as [ds rest]. simpl in *.
  constructor; [apply digit_value_nonneg | exact IH].
Qed.

Lemma fold_digits_nonneg (ds : list Z) (acc : Z) :
  (0 <= acc)%Z -> Forall (fun d => (0 <= d)%Z) ds ->
  (0 <= fold_left (fun a d => (10 * a + d)%Z) ds acc)%Z.
Proof.
  revert acc. induction ds as [|d ds IH]; cbn [fold_left]; intros acc Hacc Hall;
    [exact Hacc|].
  inversion Hall; subst. apply IH; [lia | assumption].
Qed.

Lemma digits_to_Z_nonneg (ds : list Z) :
  Forall (fun d => (0 <= d)%Z) ds -> (0 <= digits_to_Z ds)%Z.
Proof. apply fold_digits_nonneg. lia. Qed.

Lemma first_number_nonneg (s : string) (tok : list Z * list Z) :
  first_number s = Some tok ->
  Forall (fun d => (0 <= d)%Z) (fst tok) /\
  Forall (fun d => (0 <= d)%Z) (snd tok).
Proof.
  induction s as [|c s IH]; [discriminate|].
  cbn [first_number]. destruct (is_digit c); [|exact IH].
  pose proof (take_digits_nonneg (String c s)) as Hint.
  destruct (take_digits (String c s)) as [ints rest]. simpl in Hint.
  assert (Hplain : Some (ints, @nil Z) = Some tok ->
                   Forall (fun d => (0 <= d)%Z) (fst tok) /\
                   Forall (fun d => (0 <= d)%Z) (snd tok)).
  { intros [= <-]. split; [exact Hint | constructor]. }
  destruct rest as [|d rest]; [exact Hplain|].
  destruct (Ascii.ascii_dec d "."%char) as [-> | Hd].
  - intros [= <-]. split; [exact Hint | apply take_digits_nonneg].
  - destruct d as [[] [] [] [] [] [] [] []]; try exact Hplain. now elim Hd.
Qed.

Lemma pow10_pos (n : nat) : (0 < 10 ^ Z.of_nat n)%Z.
Proof. apply Z.pow_pos_nonneg; lia. Qed.

Lemma float_of_token_nonneg (tok : list Z * list Z) :
  Forall (fun d => (0 <= d)%Z) (fst tok) ->
  Forall (fun d => (0 <= d)%Z) (snd tok) ->
  (0 <= float_of_token tok)%Q.
Proof.
  destruct tok as [ints fracs]. simpl fst. simpl snd. intros Hi Hf.
  unfold float_of_token.
  apply digits_to_Z_nonneg in Hi, Hf.
  assert (H1 : (0 <= inject_Z (digits_to_Z ints))%Q)
    by (change 0%Q with (inject_Z 0); now rewrite <- Zle_Qle).
  assert (H2 : (0 <= inject_Z (digits_to_Z fracs) /
                     inject_Z (10 ^ Z.of_nat (List.length fracs)))%Q).
  { apply Qle_shift_div_l.
    - change 0%Q with (inject_Z 0). rewrite <- Zlt_Qlt. apply pow10_pos.
    - rewrite Qmult_0_l. change 0%Q with (inject_Z 0). now rewrite <- Zle_Qle. }
  set (a := inject_Z (digits_to_Z ints)) in *.
  set (b := (inject_Z (digits_to_Z fracs) /
             inject_Z (10 ^ Z.of_nat (List.length fracs)))%Q) in *.
  lra.
Qed.

Lemma extract_rate_Some_nonneg (text : cell) (v : Q) :
  extract_rate text = Some v -> (0 <= v)%Q.
Proof.
  destruct text as [s|]; unfold extract_rate; [|discriminate].
  destruct (first_number s) as [tok|] eqn:Hfn; [|discriminate].
  intros [= <-]. destruct (first_number_nonneg _ _ Hfn) as [Hi Hf].
  now apply float_of_token_nonneg.
Qed.

End RateExtractor.

(** X7. A rate that [extract_rate] finds is never negative: the pattern has
    no sign, so a minus in front of the digits is not read. *)
Theorem extract_rate_nonneg :
  forall (text : cell) (v : Q), extract_rate text = Some v -> (0 <= v)%Q.
Proof. exact extract_rate_Some_nonneg. Qed.

Lemma extract_rate_nonneg_witness :
  extract_rate (Some "-12.50 per hour") = Some (inject_Z 12 + inject_Z 50 / inject_Z 100)%Q /\
  (0 <= inject_Z 12 + inject_Z 50 / inject_Z 100)%Q.
Proof.
  assert (H : extract_rate (Some "-12.50 per hour") =
              Some (inject_Z 12 + inject_Z 50 / inject_Z 100)%Q) by reflexivity.
  split; [exact H | exact (extract_rate_nonneg _ _ H)].
Defined.

(** * Clamping and the group statistics *)

Section MoreStatistics.

Local Open Scope Q_scope.

Lemma count_true_le (flag : DF.t -> bool) (group : list DF.t) :
  (count_true flag group <= List.length group)%nat.
Proof. apply filter_length_le. Qed.

Lemma share_bounds (flag : DF.t -> bool) (group : list DF.t) :
  group <> [] -> 0 <= share flag group <= 1.
Proof.
  intros Hne. unfold share.
  assert (Hlen : (0 < Z.of_nat (List.length group))%Z)
    by (destruct group; [now elim Hne | simpl; lia]).
  assert (Hpos : 0 < inject_Z (Z.of_nat (List.length group)))
    by (change 0 with (inject_Z 0); now rewrite <- Zlt_Qlt).
  pose proof (count_true_le flag group) as Hle.
  split.
  - apply Qle_shift_div_l; [exact Hpos|]. rewrite Qmult_0_l.
    change 0 with (inject_Z 0). rewrite <- Zle_Qle. lia.
  - apply Qle_shift_div_r; [exact Hpos|]. rewrite Qmult_1_l.
    rewrite <- Zle_Qle. lia.
Qed.

Lemma clamp_inside (value min_val max_val : Q) :
  min_val <= value <= max_val -> clamp value min_val max_val == value.
Proof.
  intros [Hlo Hhi]. unfold clamp.
  destruct (py_min_spec max_val value) as [[E ?] | [E ?]]; rewrite E;
    [destruct (py_max_spec min_val max_val) as [[E' ?] | [E' ?]]
    |destruct (py_max_spec min_val value) as [[E' ?] | [E' ?]]];
    rewrite E'; lra.
Qed.

Lemma sentiment_avg_pulse_row (k : key) (g : list DF.t) :
  Pulse.sentiment_avg_day (pulse_row k g) =
  round_ndigits (clamp (mean (map DF.sentiment g)) (-1) 1) 2.
Proof. destruct k as [[d r] p]. reflexivity. Qed.

Lemma round_ndigits_2_near (x : Q) :
  Qabs (round_ndigits x 2 - x) <= 1 # 200.
Proof.
  unfold round_ndigits. change (inject_Z (10 ^ Z.of_nat 2)) with 100.
  pose proof (round_half_even_near (x * 100)) as H.
  apply Qabs_Qle_condition in H. apply Qabs_Qle_condition.
  unfold Qdiv. change (/ 100) with (1 # 100). lra.
Qed.

End MoreStatistics.

(** X11. [clamp] on a proper interval: the result lies in the interval, a
    value inside it is returned as it is, a value below gives the lower
    bound and a value above the upper bound. On an inverted interval (lower
    bound above upper bound) the result is always the lower bound. *)
Theorem clamp_spec :
  forall value min_val max_val : Q,
    (min_val <= max_val ->
       min_val <= clamp value min_val max_val <= max_val /\
       (min_val <= value <= max_val ->
          clamp value min_val max_val == value) /\
       (value < min_val -> clamp value min_val max_val == min_val) /\
       (max_val < value -> clamp value min_val max_val == max_val))%Q /\
    (max_val < min_val -> clamp value min_val max_val == min_val)%Q.
Proof.
  intros value min_val max_val. split.
  - intros H. split; [now apply clamp_bounds|].
    split; [apply clamp_inside|]. unfold clamp. split; intros Hv.
    + destruct (py_min_spec max_val value) as [[E ?] | [E ?]]; rewrite E;
        [destruct (py_max_spec min_val max_val) as [[E' ?] | [E' ?]]
        |destruct (py_max_spec min_val value) as [[E' ?] | [E' ?]]];
        rewrite E'; lra.
    + destruct (py_min_spec max_val value) as [[E ?] | [E ?]]; rewrite E;
        [destruct (py_max_spec min_val max_val) as [[E' ?] | [E' ?]]
        |destruct (py_max_spec min_val value) as [[E' ?] | [E' ?]]];
        rewrite E'; lra.
  - intros H. unfold clamp.
    destruct (py_min_spec max_val value) as [[E ?] | [E ?]]; rewrite E;
      [destruct (py_max_spec min_val max_val) as [[E' ?] | [E' ?]]
      |destruct (py_max_spec min_val value) as [[E' ?] | [E' ?]]];
      rewrite E'; lra.
Qed.

Lemma clamp_spec_witness :
  ((-1 <= 1) /\ (1 < 7 # 5) /\ clamp (7 # 5) (-1) 1 == 1)%Q.
Proof.
  assert (H1 : (-1 <= 1)%Q) by (unfold Qle; simpl; lia).
  assert (H2 : (1 < 7 # 5)%Q) by (unfold Qlt; simpl; lia).
  split; [exact H1|]. split; [exact H2|].
  exact (proj2 (proj2 (proj2 (proj1 (clamp_spec (7 # 5) (-1) 1) H1))) H2).
Defined.

(** X13. The share of a flag in a non-empty group, count over size, already
    lies in [0, 1], because the count cannot exceed the size: the clamp
    around it returns the share unchanged. *)
Theorem share_needs_no_clamp :
  forall (flag : DF.t -> bool) (group : list DF.t),
    group <> [] ->
    (0 <= share flag group <= 1)%Q /\
    (clamp (share flag group) 0 1 == share flag group)%Q.
Proof.
  intros flag group Hne. pose proof (share_bounds flag group Hne) as H.
  split; [exact H | now apply clamp_inside].
Qed.

Lemma share_needs_no_clamp_witness :
  let group := derive sample_to_datetime sample_polarity four_listings in
  group <> [] /\
  (clamp (share DF.has_ai group) 0 1 == share DF.has_ai group)%Q.
Proof.
  intros group.
  assert (Hne : group <> []) by discriminate.
  split; [exact Hne | exact (proj2 (share_needs_no_clamp DF.has_ai group Hne))].
Defined.

(** * The pipeline as a whole *)

Section MorePipeline.

Variable to_datetime : list cell -> cell -> option date.
Variable polarity : string -> outcome.

Lemma bucket_and_aggregate_nil_iff (df : list DF.t) :
  bucket_and_aggregate df = [] <->
  forall k, List.length (filter (has_key k) df) < 5.
Proof.
  split.
  - intros Hnil k.
    destruct (Nat.lt_ge_cases (List.length (filter (has_key k) df)) 5)
      as [Hlt | Hge]; [exact Hlt|].
    assert (Hin : In (pulse_row k (filter (has_key k) df))
                     (bucket_and_aggregate df)).
    { apply In_bucket_and_aggregate. exists k. repeat split; auto.
      destruct (filter (has_key k) df) as [|r g] eqn:Hg; [simpl in Hge; lia|].
      assert (Hr : In r (filter (has_key k) df)) by (rewrite Hg; now left).
      apply In_group in Hr. apply In_group_keys. now exists r. }
    rewrite Hnil in Hin. destruct Hin.
  - intros Hall. destruct (bucket_and_aggregate df) as [|row rest] eqn:Hb;
      [reflexivity|].
    assert (Hin : In row (bucket_and_aggregate df)) by (rewrite Hb; now left).
    apply In_bucket_and_aggregate in Hin. destruct Hin as (k & _ & Hge & _).
    specialize (Hall k). lia.
Qed.

Lemma In_derive (d : DF.t) (raw : list Raw.t) :
  In d (derive to_datetime polarity raw) <->
  exists r, In r raw /\
            d = derive_row to_datetime polarity (map Raw.posted_date raw) r.
Proof.
  unfold derive. rewrite in_map_iff. split; intros (r & H1 & H2).
  - exists r. auto.
  - exists r. auto.
Qed.

Lemma list_sum_cons (a : nat) (l : list nat) :
  list_sum (a :: l) = a + list_sum l.
Proof. reflexivity. Qed.

(** The sizes of the groups add up to the number of rows that have a key. *)
Lemma one_group_per_row (ks : list key) (r : DF.t) :
  NoDup ks ->
  list_sum (map (fun k => if has_key k r then 1 else 0) ks) =
  if existsb (fun k => has_key k r) ks then 1 else 0.
Proof.
  induction 1 as [|k ks Hnotin Hnd IH]; [reflexivity|].
  cbn [map existsb]. rewrite list_sum_cons, IH.
  destruct (has_key k r) eqn:Hk; [|reflexivity]. cbn [orb].
  destruct (existsb (fun k0 => has_key k0 r) ks) eqn:Hex; [|reflexivity].
  apply existsb_exists in Hex. destruct Hex as (k' & Hin & Hk').
  apply has_key_iff in Hk, Hk'. assert (k' = k) by congruence. subst.
  contradiction.
Qed.

Lemma group_sizes_sum (ks : list key) (df : list DF.t) :
  NoDup ks ->
  list_sum (map (fun k => List.length (filter (has_key k) df)) ks) =
  List.length (filter (fun r => existsb (fun k => has_key k r) ks) df).
Proof.
  intros Hnd. induction df as [|r df IH].
  - cbn [filter List.length]. clear. induction ks as [|k ks IHk]; [reflexivity|].
    cbn [map]. now rewrite list_sum_cons, IHk.
  - assert (Hsplit :
      list_sum (map (fun k => List.length (filter (has_key k) (r :: df))) ks) =
      list_sum (map (fun k => if has_key k r then 1 else 0) ks) +
      list_sum (map (fun k => List.length (filter (has_key k) df)) ks)).
    { clear. induction ks as [|k ks IHk]; [reflexivity|].
      cbn [map]. rewrite !list_sum_cons, IHk. cbn [filter].
      destruct (has_key k r); cbn [List.length]; lia. }
    rewrite Hsplit, IH, (one_group_per_row ks r Hnd). cbn [filter].
    destruct (existsb (fun k => has_key k r) ks); cbn [List.length]; lia.
Qed.

Lemma covered_has_date (df : list DF.t) (r : DF.t) :
  In r df ->
  existsb (fun k => has_key k r) (group_keys df) = has_date r.
Proof.
  intros Hin. unfold has_date.
  destruct (DF.date_utc r) as [d|] eqn:Hd.
  - apply existsb_exists. exists (d, DF.region_code r, DF.proj_type_code r).
    assert (Hk : key_of r = Some (d, DF.region_code r, DF.proj_type_code r))
      by (unfold key_of; now rewrite Hd).
    split; [apply In_group_keys; now exists r | now apply has_key_iff].
  - destruct (existsb _ _) eqn:Hex; [|reflexivity].
    apply existsb_exists in Hex. destruct Hex as (k & _ & Hk).
    apply has_key_iff in Hk. unfold key_of in Hk. now rewrite Hd in Hk.
Qed.

Lemma groupby_sizes (df : list DF.t) :
  list_sum (map (fun g => List.length (snd g)) (groupby df)) =
  List.length (filter has_date df).
Proof.
  unfold groupby. rewrite map_map. cbn [snd].
  rewrite group_sizes_sum
    by apply StronglySorted_NoDup, group_keys_StronglySorted.
  f_equal. apply filter_ext_in. intros r Hin. now apply covered_has_date.
Qed.

Lemma aggregate_totals (groups : list (key * list DF.t)) :
  5 * List.length (aggregate groups) <= total_roles (aggregate groups) /\
  total_roles (aggregate groups) <=
    list_sum (map (fun g => List.length (snd g)) groups).
Proof.
  induction groups as [|[k g] groups [IH1 IH2]]; [simpl; lia|].
  cbn [aggregate map snd]. rewrite list_sum_cons.
  destruct (Nat.ltb_spec (List.length g) 5) as [Hlt | Hge].
  - lia.
  - cbn [List.length total_roles fold_right] in *.
    rewrite role_count_pulse_row. fold (total_roles (aggregate groups)). lia.
Qed.

End MorePipeline.

(** X14. Whenever [process] does hand rows to [to_csv], there is at least
    one row, the rows are exactly those of the groups of 5 or more listings,
    their keys ascend strictly, and no key occurs twice. *)
Theorem process_output_strictly_sorted :
  forall (to_datetime : list cell -> cell -> option date)
         (polarity : string -> outcome)
         (raw : list Raw.t) (out : list Pulse.t),
    process to_datetime polarity raw = Ok out ->
    let df := derive to_datetime polarity raw in
    out <> [] /\
    StronglySorted key_lt (map row_key out) /\
    NoDup (map row_key out) /\
    forall row, In row out <->
                exists k, 5 <= List.length (filter (has_key k) df) /\
                          row = pulse_row k (filter (has_key k) df).
Proof.
  intros to_datetime polarity raw out H df.
  apply process_Ok in H. destruct H as (Hne & -> & Hs & Hnd).
  repeat split; auto.
  - intros Hin. apply In_bucket_and_aggregate in Hin.
    destruct Hin as (k & _ & Hge & ->). now exists k.
  - intros (k & Hge & ->). apply In_bucket_and_aggregate. exists k.
    repeat split; auto. fold df.
    destruct (filter (has_key k) df) as [|r g] eqn:Hg; [simpl in Hge; lia|].
    assert (Hr : In r (filter (has_key k) df)) by (rewrite Hg; now left).
    apply In_group in Hr. apply In_group_keys. now exists r.
Qed.

Lemma process_output_strictly_sorted_witness :
  exists out,
    process sample_to_datetime sample_polarity ten_listings = Ok out /\
    map row_key out = [ (mkdate 2024 1 1, "NA", "F");
                        (mkdate 2024 1 2, "EU", "F") ] /\
    StronglySorted key_lt (map row_key out) /\
    NoDup (map row_key out).
Proof.
  eexists. split; [vm_compute; reflexivity|]. split; [reflexivity|].
  assert (H : process sample_to_datetime sample_polarity ten_listings =
              Ok (bucket_and_aggregate
                    (derive sample_to_datetime sample_polarity ten_listings)))
    by (vm_compute; reflexivity).
  pose proof (process_output_strictly_sorted sample_to_datetime
                sample_polarity ten_listings _ H) as (_ & Hs & Hnd & _).
  split; [exact Hs | exact Hnd].
Defined.

(** X16. The counts of the emitted rows add up to no more than the number of
    rows of the frame that have a date, since every row falls in one group
    at most; as each emitted row counts 5 rows or more, a frame of n rows
    gives at most n/5 result rows. *)
Theorem role_counts_bounded_by_input :
  forall df : list DF.t,
    let out := bucket_and_aggregate df in
    5 * List.length out <= total_roles out /\
    total_roles out <= List.length (filter has_date df) /\
    List.length (filter has_date df) <= List.length df.
Proof.
  intros df out. unfold out, bucket_and_aggregate.
  destruct (aggregate_totals (groupby df)) as [H1 H2].
  rewrite groupby_sizes in H2.
  repeat split; auto. apply filter_length_le.
Qed.

(** * Where the result rows come from *)

Section Provenance.

Local Open Scope Q_scope.

Lemma filter_map_length {A B : Type} (f : A -> B) (p : B -> bool) (l : list A) :
  List.length (filter p (map f l)) =
  List.length (filter (fun a => p (f a)) l).
Proof.
  induction l as [|a l IH]; simpl; [reflexivity|].
  destruct (p (f a)); simpl; now rewrite IH.
Qed.

Lemma nth_nonneg (n : nat) (l : list Q) :
  Forall (fun v => 0 <= v) l -> 0 <= nth n l 0.
Proof.
  intros Hall. destruct (nth_in_or_default n l 0) as [Hin | ->]; [|lra].
  rewrite Forall_forall in Hall. now apply Hall.
Qed.

Lemma median_nonneg (l : list Q) :
  Forall (fun v => 0 <= v) l -> 0 <= median l.
Proof.
  intros Hall.
  assert (Hs : Forall (fun v => 0 <= v) (sort_Q l)).
  { rewrite Forall_forall in *. intros v Hv. apply Hall.
    apply Permutation_in with (l := sort_Q l); [|exact Hv].
    apply Permutation_sym, sort_Q_Permutation. }
  unfold median. destruct (Nat.even (List.length (sort_Q l))).
  - pose proof (nth_nonneg (List.length (sort_Q l) / 2 - 1) _ Hs) as H1.
    pose proof (nth_nonneg (List.length (sort_Q l) / 2) _ Hs) as H2.
    set (a := nth _ _ _) in *. set (b := nth _ (sort_Q l) 0) in *.
    unfold Qdiv. change (/ 2) with (1 # 2). lra.
  - now apply nth_nonneg.
Qed.

Lemma filter_length_Permutation {A : Type} (f : A -> bool) (l l' : list A) :
  Permutation l l' -> List.length (filter f l) = List.length (filter f l').
Proof.
  induction 1 as [| x l l' _ IH | x y l | l l' l'' _ IH1 _ IH2]; simpl.
  - reflexivity.
  - destruct (f x); simpl; now rewrite IH.
  - destruct (f x), (f y); reflexivity.
  - congruence.
Qed.

Lemma filter_filter_comm {A : Type} (f g : A -> bool) (l : list A) :
  filter f (filter g l) = filter g (filter f l).
Proof.
  induction l as [|a l IH]; simpl; [reflexivity|].
  destruct (f a) eqn:Hf, (g a) eqn:Hg; simpl; rewrite ?Hf, ?Hg, IH; reflexivity.
Qed.

(** Strictly ascending lists with the same members are the same list. *)
Lemma StronglySorted_unique (l1 l2 : list key) :
  StronglySorted key_lt l1 -> StronglySorted key_lt l2 ->
  (forall k, In k l1 <-> In k l2) -> l1 = l2.
Proof.
  intros H1. revert l2. induction H1 as [|a l1 Hs1 IH Ha]; intros l2 H2 Hmem.
  - destruct l2 as [|b l2]; [reflexivity|].
    destruct (proj2 (Hmem b) (or_introl eq_refl)).
  - destruct H2 as [|b l2 Hs2 Hb].
    + destruct (proj1 (Hmem a) (or_introl eq_refl)).
    + rewrite Forall_forall in Ha, Hb.
      assert (Hab : a = b).
      { destruct (proj1 (Hmem a) (or_introl eq_refl)) as [E | Hin]; [auto|].
        destruct (proj2 (Hmem b) (or_introl eq_refl)) as [E | Hin']; [auto|].
        exfalso. apply (key_lt_irrefl a).
        exact (key_lt_trans _ _ _ (Ha b Hin') (Hb a Hin)). }
      subst b. f_equal. apply IH; [exact Hs2|].
      intros k. split; intros Hin.
      * destruct (proj1 (Hmem k) (or_intror Hin)) as [E | Hin']; [|exact Hin'].
        subst k. elim (key_lt_irrefl a). now apply Ha.
      * destruct (proj2 (Hmem k) (or_intror Hin)) as [E | Hin']; [|exact Hin'].
        subst k. elim (key_lt_irrefl a). now apply Hb.
Qed.

Lemma group_keys_Permutation (df df' : list DF.t) :
  Permutation df df' -> group_keys df = group_keys df'.
Proof.
  intros Hp. apply StronglySorted_unique; try apply group_keys_StronglySorted.
  intros k. rewrite !In_group_keys.
  split; intros (r & Hin & Hk); exists r; split; auto.
  - now apply Permutation_in with (l := df).
  - apply Permutation_in with (l := df'); [now apply Permutation_sym | exact Hin].
Qed.

Lemma map_region_range (field : cell) :
  In (map_region field) ["NA"; "EU"; "AP"; "LA"].
Proof.
  destruct (map_code_range REGION_MAPPING "NA" field) as [H | H];
    [left; exact H | exact H].
Qed.

Lemma map_project_type_range (field : cell) :
  In (map_project_type field) ["F"; "T"; "C"; "V"].
Proof.
  destruct (map_code_range PROJECT_TYPE_MAPPING "V" field) as [H | H];
    [right; right; right; left; exact H | exact H].
Qed.

Lemma row_counts_pulse_row (k : key) (g : list DF.t) :
  row_counts (pulse_row k g) =
  (k, List.length g,
   round_ndigits (clamp (share DF.is_lead g) 0 1) 1,
   round_ndigits (clamp (share DF.is_union g) 0 1) 1,
   round_ndigits (clamp (share DF.has_ai g) 0 1) 1).
Proof. destruct k as [[d r] p]. reflexivity. Qed.

Lemma share_Permutation (flag : DF.t -> bool) (k : key) (df df' : list DF.t) :
  Permutation df df' ->
  share flag (filter (has_key k) df) = share flag (filter (has_key k) df').
Proof.
  intros Hp. unfold share, count_true.
  rewrite !(filter_filter_comm flag (has_key k)).
  rewrite (filter_length_Permutation (has_key k) df df' Hp).
  assert (Hf : Permutation (filter flag df) (filter flag df')).
  { clear k. induction Hp as [| x l l' _ IH | x y l | l l' l'' _ IH1 _ IH2]; simpl.
    - constructor.
    - destruct (flag x); [now constructor | exact IH].
    - destruct (flag x), (flag y); try reflexivity. apply perm_swap.
    - now rewrite IH1. }
  now rewrite (filter_length_Permutation (has_key k) _ _ Hf).
Qed.

End Provenance.

(** X17. Every row that [process] writes carries a region code among NA, EU,
    AP, LA and a project-type code among F, T, C, V, and its
    [role_count_day] is the number of input listings whose posted date
    parses to the row's date and whose location and project type classify to
    the row's codes; that number is at least 5. *)
Theorem output_rows_count_listings :
  forall (to_datetime : list cell -> cell -> option date)
         (polarity : string -> outcome)
         (raw : list Raw.t) (out : list Pulse.t),
    process to_datetime polarity raw = Ok out ->
    Forall (fun row =>
              In (Pulse.region_code row) ["NA"; "EU"; "AP"; "LA"] /\
              In (Pulse.proj_type_code row) ["F"; "T"; "C"; "V"] /\
              5 <= Pulse.role_count_day row /\
              Pulse.role_count_day row =
                List.length
                  (filter
                     (fun r =>
                        has_key (row_key row)
                          (derive_row to_datetime polarity
                             (map Raw.posted_date raw) r))
                     raw) /\
              exists r, In r raw /\
                to_datetime (map Raw.posted_date raw) (Raw.posted_date r) =
                  Some (Pulse.date_utc row) /\
                map_region (Raw.work_location r) = Pulse.region_code row /\
                map_project_type (Raw.project_type r) =
                  Pulse.proj_type_code row)
           out.
Proof.
  intros to_datetime polarity raw out H.
  apply process_Ok in H. destruct H as (_ & -> & _).
  apply bucket_and_aggregate_Forall. intros k Hk Hge.
  apply In_group_keys in Hk. destruct Hk as (d & Hd & Hkey).
  apply In_derive in Hd. destruct Hd as (r & Hr & ->).
  unfold key_of in Hkey. cbn [DF.date_utc DF.region_code DF.proj_type_code
                               derive_row] in Hkey.
  destruct (to_datetime (map Raw.posted_date raw) (Raw.posted_date r))
    as [dt|] eqn:Hdt; [|discriminate].
  injection Hkey as <-.
  rewrite role_count_pulse_row, row_key_pulse_row.
  cbn [pulse_row Pulse.region_code Pulse.proj_type_code Pulse.date_utc].
  split; [apply map_region_range|].
  split; [apply map_project_type_range|].
  split; [exact Hge|]. split.
  - unfold derive. apply filter_map_length.
  - exists r. auto.
Qed.

Lemma output_rows_count_listings_witness :
  exists out,
    process sample_to_datetime sample_polarity six_listings = Ok out /\
    Forall (fun row => 5 <= Pulse.role_count_day row) out.
Proof.
  eexists. split; [vm_compute; reflexivity|].
  refine (Forall_impl _ _
            (output_rows_count_listings sample_to_datetime sample_polarity
               six_listings _ _)).
  - intros row H. exact (proj1 (proj2 (proj2 H))).
  - vm_compute. reflexivity.
Defined.

(** X19. No row that [process] writes has a negative median rate: every
    rate comes from [extract_rate], which reads no sign. *)
Theorem process_median_rate_nonneg :
  forall (to_datetime : list cell -> cell -> option date)
         (polarity : string -> outcome)
         (raw : list Raw.t) (out : list Pulse.t),
    process to_datetime polarity raw = Ok out ->
    Forall (fun row =>
              forall v : Z,
                Pulse.median_rate_day_usd row = Some v -> (0 <= v)%Z)
           out.
Proof.
  intros to_datetime polarity raw out H.
  apply process_Ok in H. destruct H as (_ & -> & _).
  apply bucket_and_aggregate_Forall. intros k _ _.
  rewrite median_rate_pulse_row.
  set (g := filter (has_key k) (derive to_datetime polarity raw)).
  assert (Hrates : Forall (fun v => (0 <= v)%Q) (valid_rates g)).
  { apply Forall_forall. intros v Hv. apply In_valid_rates in Hv.
    destruct Hv as (d & Hd & Hrate). apply In_group in Hd.
    destruct Hd as [Hd _]. apply In_derive in Hd. destruct Hd as (r & _ & ->).
    exact (extract_rate_Some_nonneg _ _ Hrate). }
  destruct (valid_rates g) as [|x rates] eqn:Hg; [discriminate|].
  intros v [= <-]. apply Z.mul_nonneg_nonneg; [|lia].
  apply round_half_even_ge. change (inject_Z 0) with 0%Q.
  pose proof (median_nonneg _ Hrates) as Hm.
  set (m := median (x :: rates)) in *.
  unfold Qdiv. change (/ 250)%Q with (1 # 250)%Q. lra.
Qed.

Lemma process_median_rate_nonneg_witness :
  exists out,
    process sample_to_datetime sample_polarity six_listings = Ok out /\
    Forall (fun row =>
              forall v : Z,
                Pulse.median_rate_day_usd row = Some v -> (0 <= v)%Z) out.
Proof.
  eexists. split; [vm_compute; reflexivity|].
  refine (process_median_rate_nonneg sample_to_datetime sample_polarity
            six_listings _ _).
  vm_compute. reflexivity.
Defined.

(** X20. The order of the rows in the frame does not matter for which keys
    are emitted, in which order, with which count and with which three
    shares: two frames that are rearrangements of each other give result
    rows that agree on all of these. *)
Theorem counts_independent_of_row_order :
  forall df df' : list DF.t,
    Permutation df df' ->
    map row_counts (bucket_and_aggregate df) =
    map row_counts (bucket_and_aggregate df').
Proof.
  intros df df' Hp. unfold bucket_and_aggregate, groupby.
  rewrite <- (group_keys_Permutation df df' Hp).
  induction (group_keys df) as [|k ks IH]; [reflexivity|].
  cbn [map aggregate].
  rewrite <- (filter_length_Permutation (has_key k) df df' Hp).
  destruct (List.length (filter (has_key k) df) <? 5)%nat eqn:Hlt; [exact IH|].
  cbn [map]. rewrite IH. f_equal.
  rewrite !row_counts_pulse_row.
  rewrite <- (filter_length_Permutation (has_key k) df df' Hp).
  now rewrite !(share_Permutation _ k df df' Hp).
Qed.

Lemma counts_independent_of_row_order_witness :
  let df := derive sample_to_datetime sample_polarity six_listings in
  Permutation df (rev df) /\
  map row_counts (bucket_and_aggregate df) =
  map row_counts (bucket_and_aggregate (rev df)).
Proof.
  intros df.
  assert (Hp : Permutation df (rev df)) by apply Permutation_rev.
  split; [exact Hp | exact (counts_independent_of_row_order df (rev df) Hp)].
Defined.

Section MeanSentiment.

Local Open Scope Q_scope.

Lemma Qsum_bounds (l : list Q) :
  Forall (fun v => -1 <= v <= 1) l ->
  - inject_Z (Z.of_nat (List.length l)) <= Qsum l
    <= inject_Z (Z.of_nat (List.length l)).
Proof.
  induction 1 as [|v l Hv _ IH].
  - split; vm_compute; discriminate.
  - cbn [Qsum fold_right List.length]. fold (Qsum l).
    rewrite Nat2Z.inj_succ. unfold Z.succ. rewrite inject_Z_plus.
    change (inject_Z 1) with 1. lra.
Qed.

End MeanSentiment.

(** X21. When every row of a non-empty group has a sentiment in [-1, 1], as
    [calc_sentiment] gives under the capability's contract, the mean of the
    group lies in [-1, 1] too and the clamp around it returns it
    unchanged. *)
Theorem mean_sentiment_needs_no_clamp :
  forall group : list DF.t,
    group <> [] ->
    Forall (fun r => (-1 <= DF.sentiment r <= 1)%Q) group ->
    (-1 <= mean (map DF.sentiment group) <= 1)%Q /\
    (clamp (mean (map DF.sentiment group)) (-1) 1 ==
     mean (map DF.sentiment group))%Q.
Proof.
  intros group Hne Hall.
  assert (Hb : (-1 <= mean (map DF.sentiment group) <= 1)%Q).
  { unfold mean.
    assert (Hs : Forall (fun v => (-1 <= v <= 1)%Q) (map DF.sentiment group)).
    { apply Forall_forall. intros v Hv. apply in_map_iff in Hv.
      destruct Hv as (r & <- & Hr). rewrite Forall_forall in Hall. auto. }
    pose proof (Qsum_bounds _ Hs) as Hsum.
    assert (Hlen : (0 < Z.of_nat (List.length (map DF.sentiment group)))%Z).
    { rewrite length_map. destruct group; [now elim Hne | simpl; lia]. }
    set (n := inject_Z (Z.of_nat (List.length (map DF.sentiment group)))) in *.
    assert (Hpos : (0 < n)%Q)
      by (unfold n; change 0%Q with (inject_Z 0); now rewrite <- Zlt_Qlt).
    split.
    - apply Qle_shift_div_l; [exact Hpos | lra].
    - apply Qle_shift_div_r; [exact Hpos | lra]. }
  split; [exact Hb | now apply clamp_inside].
Qed.

Lemma mean_sentiment_needs_no_clamp_witness :
  let group := derive sample_to_datetime sample_polarity four_listings in
  group <> [] /\
  Forall (fun r => (-1 <= DF.sentiment r <= 1)%Q) group /\
  (-1 <= mean (map DF.sentiment group) <= 1)%Q.
Proof.
  intros group.
  assert (Hne : group <> []) by discriminate.
  assert (Hall : Forall (fun r => (-1 <= DF.sentiment r <= 1)%Q) group).
  { repeat constructor; vm_compute; discriminate. }
  split; [exact Hne|]. split; [exact Hall|].
  exact (proj1 (mean_sentiment_needs_no_clamp group Hne Hall)).
Defined.

(** * Machine arithmetic *)

Section Binary64.

Local Open Scope Q_scope.






End Binary64.

Section MachineRows.

Local Open Scope Q_scope.

Variable lib : library.

Lemma In_aggregate_with (row_of : key -> list DF.t -> Pulse.t)
  (row : Pulse.t) (groups : list (key * list DF.t)) :
  In row (aggregate_with row_of groups) <->
  exists k g, In (k, g) groups /\ (5 <= List.length g)%nat /\ row = row_of k g.
Proof.
  induction groups as [|[k g] groups IH]; simpl.
  - split; [tauto | intros (k & g & [] & _)].
  - destruct (Nat.ltb_spec (List.length g) 5) as [Hlt | Hge].
    + rewrite IH. split.
      * intros (k' & g' & Hin & H). exists k', g'. auto.
      * intros (k' & g' & [[= <- <-] | Hin] & Hlen & Hrow); [lia|].
        now exists k', g'.
    + simpl. rewrite IH. split.
      * intros [<- | (k' & g' & Hin & H)].
        -- exists k, g. auto.
        -- exists k', g'. auto.
      * intros (k' & g' & [[= <- <-] | Hin] & Hlen & Hrow); [now left|].
        right. now exists k', g'.
Qed.

(** Every row of [Machine.bucket_and_aggregate] is the row of a group of the
    frame with 5 rows or more. *)
Lemma machine_rows_Forall (P : Pulse.t -> Prop) (df : list DF.t) :
  (forall k, In k (group_keys df) ->
             (5 <= List.length (filter (has_key k) df))%nat ->
             P (Machine.pulse_row lib k (filter (has_key k) df))) ->
  Forall P (Machine.bucket_and_aggregate lib df).
Proof.
  intros H. apply Forall_forall. intros row Hin.
  apply In_aggregate_with in Hin. destruct Hin as (k & g & Hin & Hlen & ->).
  apply In_groupby in Hin. destruct Hin as [Hk ->]. now apply H.
Qed.

Lemma machine_row_key (k : key) (g : list DF.t) :
  row_key (Machine.pulse_row lib k g) = k.
Proof. now destruct k as [[d r] p]. Qed.



Lemma machine_sentiment_avg (k : key) (g : list DF.t) :
  Pulse.sentiment_avg_day (Machine.pulse_row lib k g) =
  round_nd lib (clamp (Series_mean lib (map DF.sentiment g)) (-1) 1) 2.
Proof. destruct k as [[d r] p]. reflexivity. Qed.


(** How [clamp] acts on the three parts of the line. *)
Lemma clamp_cases (value min_val max_val : Q) :
  min_val <= max_val ->
  (min_val <= value <= max_val -> clamp value min_val max_val == value) /\
  (value < min_val -> clamp value min_val max_val == min_val) /\
  (max_val < value -> clamp value min_val max_val == max_val).
Proof.
  intros H. unfold clamp. repeat split; intros Hv;
    (destruct (py_min_spec max_val value) as [[E ?] | [E ?]]; rewrite E;
     [destruct (py_max_spec min_val max_val) as [[E' ?] | [E' ?]]
     |destruct (py_max_spec min_val value) as [[E' ?] | [E' ?]]];
     rewrite E'; lra).
Qed.

End MachineRows.

Section ExactLibrary.

Local Open Scope Q_scope.

Lemma round_half_even_comp (x y : Q) :
  x == y -> round_half_even x = round_half_even y.
Proof.
  intros Hxy. unfold round_half_even.
  rewrite <- (Qfloor_comp x y Hxy).
  assert (Hc : Qcompare (x - inject_Z (Qfloor x)) (1 # 2) =
               Qcompare (y - inject_Z (Qfloor x)) (1 # 2)).
  { apply Qcompare_comp; [lra | reflexivity]. }
  now rewrite Hc.
Qed.

Lemma round_ndigits_comp (x y : Q) (n : nat) :
  x == y -> round_ndigits x n == round_ndigits y n.
Proof.
  intros Hxy. unfold round_ndigits.
  rewrite (round_half_even_comp (x * inject_Z (10 ^ Z.of_nat n))
             (y * inject_Z (10 ^ Z.of_nat n))); [reflexivity|].
  apply Qmult_comp; [exact Hxy | reflexivity].
Qed.

Lemma round_ndigits_bounds (a b : Z) (x : Q) (n : nat) :
  inject_Z a <= x <= inject_Z b ->
  inject_Z a <= round_ndigits x n <= inject_Z b.
Proof.
  apply scaled_round_bounds. apply Z.pow_pos_nonneg; lia.
Qed.

End ExactLibrary.

(** * The classifiers for every lower-casing *)

(** C4. Whatever [str.lower] does to the text, [map_region] walks the
    categories in the order NA, EU, AP, LA and returns the first one (if
    any) one of whose keywords occurs in the lower-cased text, every
    category before it having no keyword that occurs; when no category
    matches, and when the location is missing, the result is NA. *)
Theorem map_region_first_matching_category :
  forall lib : library,
    map fst REGION_MAPPING = ["NA"; "EU"; "AP"; "LA"] /\
    Machine.map_region lib None = "NA" /\
    forall location : string,
      let loc := str_lower lib location in
      (exists before code keywords after,
          REGION_MAPPING = (before ++ (code, keywords) :: after)%list /\
          Forall (NoMatch loc) before /\
          Matches keywords loc /\
          Machine.map_region lib (Some location) = code)
      \/ (Forall (NoMatch loc) REGION_MAPPING /\
          Machine.map_region lib (Some location) = "NA").
Proof.
  intros lib. split; [reflexivity|]. split; [reflexivity|].
  intros location loc. unfold Machine.map_region, Machine.map_code. fold loc.
  destruct (first_match REGION_MAPPING loc) as [code|] eqn:Hfm.
  - left. apply first_match_Some in Hfm.
    destruct Hfm as (before & keywords & after & Heq & Hno & Hm).
    now exists before, code, keywords, after.
  - right. apply first_match_None in Hfm. now split.
Qed.

(** C10. Whatever [str.lower] does to the text, [has_ai_keywords] answers
    true on every text whose lower-cased form contains "ai" anywhere, also
    inside a longer word; it answers false only on a missing text or when
    none of its keywords occurs in the lower-cased form. *)
Theorem has_ai_keywords_substring_ai :
  forall lib : library,
    (forall text : string,
        Substring "ai" (str_lower lib text) ->
        Machine.has_ai_keywords lib (Some text) = true) /\
    (forall text : cell,
        Machine.has_ai_keywords lib text = false <->
        text = None \/
        exists v, text = Some v /\ ~ Matches AI_TERMS (str_lower lib v)).
Proof.
  intros lib. split.
  - intros text H. unfold Machine.has_ai_keywords. apply any_in_Matches.
    exists "ai". split; [simpl; auto | exact H].
  - intros [v|]; unfold Machine.has_ai_keywords.
    + rewrite any_in_false_Matches. split.
      * intros H. right. now exists v.
      * intros [H | (v' & Hv & H)]; [discriminate | now injection Hv as ->].
    + split; auto.
Qed.

Lemma has_ai_keywords_substring_ai_witness :
  Substring "ai" (str_lower exact_library "Maintain the set") /\
  Substring "ai" (str_lower exact_library "Personal trainer") /\
  Machine.has_ai_keywords exact_library (Some "Maintain the set") = true /\
  Machine.has_ai_keywords exact_library (Some "Personal trainer") = true.
Proof.
  assert (H1 : Substring "ai" (str_lower exact_library "Maintain the set"))
    by (exists "m", "ntain the set"; reflexivity).
  assert (H2 : Substring "ai" (str_lower exact_library "Personal trainer"))
    by (exists "personal tr", "ner"; reflexivity).
  split; [exact H1|]. split; [exact H2|]. split.
  - exact (proj1 (has_ai_keywords_substring_ai exact_library) _ H1).
  - exact (proj1 (has_ai_keywords_substring_ai exact_library) _ H2).
Defined.

(** * The statistics over machine arithmetic *)





(** * The sentiment scorer over machine arithmetic *)

Section SentimentFloat.

Local Open Scope Q_scope.




End SentimentFloat.




(** * The rate extractor on ASCII text *)

Section RateExtractorAscii.

Lemma stops_integer_no_leading_digit (rest : string) :
  stops_integer rest = true -> ends_integer_token rest = true.
Proof.
  destruct rest as [|c rest]; [reflexivity|]. simpl.
  intros H. apply andb_true_iff in H. destruct H as [H Hdot].
  apply andb_true_iff in H. destruct H as [_ Hdig].
  now rewrite Hdig, Hdot.
Qed.

Lemma stops_digits_no_leading_digit (rest : string) :
  stops_digits rest = true -> no_leading_digit rest = true.
Proof.
  destruct rest as [|c rest]; [reflexivity|]. simpl.
  intros H. now apply andb_true_iff in H.
Qed.

Lemma string_digits_length (s : string) :
  List.length (string_digits s) = String.length s.
Proof. induction s as [|c s IH]; simpl; [reflexivity | now rewrite IH]. Qed.

Lemma float_of_integer_token (ds : list Z) :
  (float_of_token (ds, []) == inject_Z (digits_to_Z ds))%Q.
Proof.
  unfold float_of_token. simpl List.length.
  change (inject_Z (digits_to_Z [])) with 0%Q.
  change (inject_Z (10 ^ Z.of_nat 0)) with 1%Q.
  set (a := inject_Z (digits_to_Z ds)).
  unfold Qdiv. change (/ 1)%Q with 1%Q. lra.
Qed.

Lemma first_number_integer (ds rest : string) :
  all_digits ds = true -> ds <> EmptyString ->
  ends_integer_token rest = true ->
  first_number (ds ++ rest) = Some (string_digits ds, []).
Proof.
  intros Hds Hne Hrest.
  assert (Hnl : no_leading_digit rest = true).
  { destruct rest as [|c rest]; [reflexivity|]. simpl in *.
    now apply andb_true_iff in Hrest. }
  rewrite (first_number_at_digits ds rest Hds Hne Hnl).
  destruct rest as [|c rest]; [reflexivity|].
  destruct (Ascii.ascii_dec c "."%char) as [-> | Hc].
  - simpl in Hrest. discriminate.
  - destruct c as [[] [] [] [] [] [] [] []]; try reflexivity. now elim Hc.
Qed.

End RateExtractorAscii.

(** X6. On an ASCII text, [extract_rate] gives no rate exactly when the text
    holds no digit; on a missing field it gives none. *)
Theorem extract_rate_missing_iff :
  extract_rate None = None /\
  forall v : string,
    is_ascii v = true ->
    (extract_rate (Some v) = None <-> no_digits v = true).
Proof.
  split; [reflexivity|]. intros v _. unfold extract_rate.
  destruct (first_number v) as [tok|] eqn:Hfn.
  - split; [discriminate|]. intros Hnd.
    apply first_number_None in Hnd. congruence.
  - split; [|reflexivity]. intros _. now apply first_number_None.
Qed.

Lemma extract_rate_missing_iff_witness :
  is_ascii "Rate on request" = true /\ no_digits "Rate on request" = true /\
  extract_rate (Some "Rate on request") = None.
Proof.
  assert (Ha : is_ascii "Rate on request" = true) by reflexivity.
  assert (Hn : no_digits "Rate on request" = true) by reflexivity.
  split; [exact Ha|]. split; [exact Hn|].
  exact (proj2 (proj2 extract_rate_missing_iff "Rate on request" Ha) Hn).
Defined.

(** X8. An ASCII prefix without digits (a currency sign, a word, a minus)
    has no effect on the rate: the rate of the prefix followed by a text is
    the rate of that text. *)
Theorem extract_rate_skips_prefix :
  forall prefix s : string,
    is_ascii prefix = true ->
    no_digits prefix = true ->
    extract_rate (Some (prefix ++ s)) = extract_rate (Some s).
Proof.
  intros prefix s _ H. unfold extract_rate. now rewrite first_number_skip.
Qed.

Lemma extract_rate_skips_prefix_witness :
  is_ascii "USD -" = true /\ no_digits "USD -" = true /\
  extract_rate (Some ("USD -" ++ "450/day")) = extract_rate (Some "450/day").
Proof.
  assert (Ha : is_ascii "USD -" = true) by reflexivity.
  assert (H : no_digits "USD -" = true) by reflexivity.
  split; [exact Ha|]. split; [exact H|].
  exact (extract_rate_skips_prefix "USD -" "450/day" Ha H).
Defined.

(** X9. When the text starts with a run of ASCII digits that denotes an
    integer of at most 2^53 and the run is followed by the end of the text
    or by an ASCII character that is neither a digit nor a dot (a comma, a
    dash, a space), the rate is that integer and the rest is not read: a
    thousands separator cuts the number, and of a range the lower end is
    taken. *)
Theorem extract_rate_integer_token :
  forall ds rest : string,
    all_digits ds = true -> ds <> EmptyString ->
    (decimal_value ds <= 2 ^ 53)%Z ->
    stops_integer rest = true ->
    exists v : Q,
      extract_rate (Some (ds ++ rest)) = Some v /\
      (v == inject_Z (decimal_value ds))%Q.
Proof.
  intros ds rest Hds Hne _ Hrest. unfold extract_rate.
  rewrite (first_number_integer ds rest Hds Hne
             (stops_integer_no_leading_digit rest Hrest)).
  eexists. split; [reflexivity | apply float_of_integer_token].
Qed.

Lemma extract_rate_integer_token_witness :
  all_digits "1" = true /\ stops_integer ",200 flat" = true /\
  (decimal_value "1" <= 2 ^ 53)%Z /\
  exists v : Q,
    extract_rate (Some ("1" ++ ",200 flat")) = Some v /\ (v == inject_Z 1)%Q.
Proof.
  assert (H1 : all_digits "1" = true) by reflexivity.
  assert (H2 : stops_integer ",200 flat" = true) by reflexivity.
  assert (H3 : "1" <> EmptyString) by discriminate.
  assert (H4 : (decimal_value "1" <= 2 ^ 53)%Z) by (vm_compute; discriminate).
  split; [exact H1|]. split; [exact H2|]. split; [exact H4|].
  exact (extract_rate_integer_token "1" ",200 flat" H1 H3 H4 H2).
Defined.

(** X10. The token that the rate is read from: when the text starts with a
    run of ASCII digits, a dot and a (possibly empty) run of ASCII digits,
    followed by the end of the text or by an ASCII character that is no
    digit, the token is the first run, the dot and the second run; a second
    dot, or anything else after them, is not part of it. *)
Theorem extract_rate_decimal_token :
  forall ds fs rest : string,
    all_digits ds = true -> ds <> EmptyString ->
    all_digits fs = true -> stops_digits rest = true ->
    first_number (ds ++ "." ++ fs ++ rest) =
      Some (string_digits ds, string_digits fs).
Proof.
  intros ds fs rest Hds Hne Hfs Hrest.
  apply stops_digits_no_leading_digit in Hrest.
  rewrite (first_number_at_digits ds ("." ++ fs ++ rest) Hds Hne eq_refl).
  cbn [append]. now rewrite (take_digits_app fs rest Hfs Hrest).
Qed.

Lemma extract_rate_decimal_token_witness :
  all_digits "1" = true /\ all_digits "25" = true /\
  stops_digits ".3k" = true /\
  first_number ("1" ++ "." ++ "25" ++ ".3k") = Some ([1%Z], [2%Z; 5%Z]).
Proof.
  assert (H1 : all_digits "1" = true) by reflexivity.
  assert (H2 : all_digits "25" = true) by reflexivity.
  assert (H3 : stops_digits ".3k" = true) by reflexivity.
  assert (H4 : "1" <> EmptyString) by discriminate.
  split; [exact H1|]. split; [exact H2|]. split; [exact H3|].
  exact (extract_rate_decimal_token "1" "25" ".3k" H1 H4 H2 H3).
Defined.

(** * The mean sentiment and the empty result *)

(** X12. Provided rounding to two decimals keeps a value of [-1, 1] in
    [-1, 1] and depends on the value only: in every emitted row,
    whatever [Series.mean] computes, [sentiment_avg_day] lies in [-1, 1]; it
    is the mean rounded to two decimals when the mean lies in [-1, 1], the
    rounded -1 when the mean is below and the rounded 1 when it is above. *)
Theorem sentiment_avg_in_range :
  forall lib : library,
    (forall x : Q, (-1 <= x <= 1)%Q -> (-1 <= round_nd lib x 2 <= 1)%Q) ->
    (forall x y : Q,
        (x == y)%Q -> (round_nd lib x 2 == round_nd lib y 2)%Q) ->
    forall df : list DF.t,
      Forall (fun row =>
                let group := filter (has_key (row_key row)) df in
                let m := Series_mean lib (map DF.sentiment group) in
                ((-1 <= Pulse.sentiment_avg_day row <= 1) /\
                 (-1 <= m <= 1 ->
                    Pulse.sentiment_avg_day row == round_nd lib m 2) /\
                 (m < -1 ->
                    Pulse.sentiment_avg_day row == round_nd lib (-1) 2) /\
                 (1 < m ->
                    Pulse.sentiment_avg_day row == round_nd lib 1 2))%Q)
             (Machine.bucket_and_aggregate lib df).
Proof.
  intros lib Hbounds Hcomp df.
  assert (H11 : (-1 <= 1)%Q) by (unfold Qle; simpl; lia).
  apply machine_rows_Forall. intros k _ _.
  rewrite machine_row_key, machine_sentiment_avg. cbv zeta.
  set (m := Series_mean lib (map DF.sentiment (filter (has_key k) df))).
  destruct (clamp_cases m (-1) 1 H11) as (Hin & Hlo & Hhi).
  split; [|split; [|split]].
  - apply Hbounds. now apply clamp_bounds.
  - intros H. apply Hcomp. now apply Hin.
  - intros H. apply Hcomp. now apply Hlo.
  - intros H. apply Hcomp. now apply Hhi.
Qed.

Lemma sentiment_avg_in_range_witness :
  let row := hd (pulse_row (mkdate 1 1 1, "", "") [])
                (Machine.bucket_and_aggregate exact_library sample_frame) in
  (Pulse.sentiment_avg_day row == 1 # 20)%Q /\
  (-1 <= Pulse.sentiment_avg_day row <= 1)%Q.
Proof.
  intros row. split; [vm_compute; reflexivity|].
  pose proof (sentiment_avg_in_range exact_library
                (fun x => round_ndigits_bounds (-1) 1 x 2)
                (fun x y => round_ndigits_comp x y 2) sample_frame) as Hall.
  rewrite Forall_forall in Hall.
  assert (Hin : In row (Machine.bucket_and_aggregate exact_library sample_frame))
    by (left; reflexivity).
  exact (proj1 (Hall row Hin)).
Defined.

(** X15. On every frame in which no key is shared by 5 rows or more, in
    particular on every frame of fewer than 5 rows, the second half of
    [process] builds an empty result, the sort raises [KeyError] on the
    label date_utc and nothing is written. *)
Theorem emit_raises_when_all_suppressed :
  forall df : list DF.t,
    ((forall k, List.length (filter (has_key k) df) < 5) ->
     bucket_and_aggregate df = [] /\
     emit df = Raise (KeyError "date_utc")) /\
    (List.length df < 5 -> emit df = Raise (KeyError "date_utc")).
Proof.
  intros df.
  assert (H : (forall k, List.length (filter (has_key k) df) < 5) ->
              bucket_and_aggregate df = [] /\
              emit df = Raise (KeyError "date_utc")).
  { intros Hall. apply bucket_and_aggregate_nil_iff in Hall.
    split; [exact Hall|]. rewrite emit_cases. now rewrite Hall. }
  split; [exact H|].
  intros Hlen. apply H. intros k.
  pose proof (filter_length_le (has_key k) df). lia.
Qed.

Lemma emit_raises_when_all_suppressed_witness :
  let df := derive sample_to_datetime sample_polarity
              (four_listings ++
               map (fun _ => listing "2024-01-02" "London" "$500" "Day player")
                   four_listings)%list in
  (forall k, List.length (filter (has_key k) df) < 5) /\
  List.length df = 8 /\
  emit df = Raise (KeyError "date_utc").
Proof.
  intros df.
  assert (Hall : forall k, List.length (filter (has_key k) df) < 5).
  { intros k. apply bucket_and_aggregate_nil_iff. vm_compute. reflexivity. }
  split; [exact Hall|]. split; [reflexivity|].
  exact (proj2 (proj1 (emit_raises_when_all_suppressed df) Hall)).
Defined.
